(** * Verification of blockchain.py: the ledger, its hasher, the
      proof-of-work miner, the chain validator and the conflict resolver.

    The Python class [Blockchain] is embedded shallowly.  Blocks are Python
    dicts, so they are modelled as JSON values with insertion-ordered
    dictionaries; [hashlib.sha256] and [json.dumps(..., sort_keys=True)] are
    written out so that every definition can be evaluated on concrete
    blocks.  The routes [/mine], [/transactions/new], [/chain] and
    [/nodes/resolve] are modelled on top of the class.  [register_node] and
    [/nodes/register], which rest on [urlparse] and on the order in which a
    set is iterated after an addition, are left out; the peer set is taken
    as it stands. *)

From Stdlib Require Import List String Ascii NArith ZArith Lia Bool.
From Stdlib Require Import DecimalString Permutation Sorted OrdersEx.
From Stdlib Require Import RelationClasses Relation_Operators.
Import ListNotations.

Local Open Scope string_scope.
Local Open Scope list_scope.

(** ** hashlib.sha256 (FIPS 180-4), on 32-bit words carried by [N] *)

Module SHA256.
Local Open Scope N_scope.

Definition mask32 : N := 0xFFFFFFFF.

(** Addition modulo 2^32. *)
Definition add32 (x y : N) : N := N.land (x + y) mask32.

Definition rotr (n x : N) : N :=
  N.lor (N.shiftr x n) (N.land (N.shiftl x (32 - n)) mask32).

Definition not32 (x : N) : N := N.lxor x mask32.

Definition ch (x y z : N) : N :=
  N.lxor (N.land x y) (N.land (not32 x) z).

Definition maj (x y z : N) : N :=
  N.lxor (N.lxor (N.land x y) (N.land x z)) (N.land y z).

Definition big_sigma0 (x : N) : N :=
  N.lxor (N.lxor (rotr 2 x) (rotr 13 x)) (rotr 22 x).

Definition big_sigma1 (x : N) : N :=
  N.lxor (N.lxor (rotr 6 x) (rotr 11 x)) (rotr 25 x).

Definition small_sigma0 (x : N) : N :=
  N.lxor (N.lxor (rotr 7 x) (rotr 18 x)) (N.shiftr x 3).

Definition small_sigma1 (x : N) : N :=
  N.lxor (N.lxor (rotr 17 x) (rotr 19 x)) (N.shiftr x 10).

(** The constants of FIPS 180-4 are fractional parts of roots of the first
    primes and are computed as such. *)
Definition is_prime (n : N) : bool :=
  (1 <? n)
  && forallb (fun d => negb (n mod N.of_nat d =? 0))
       (seq 2 (N.to_nat n - 2)).

Definition first_primes (count : nat) : list N :=
  firstn count (filter is_prime (map N.of_nat (seq 2 310))).

(** Integer cube root, one bit at a time from bit 35 down. *)
Definition cube_root (n : N) : N :=
  fold_left
    (fun r i =>
       let r' := r + N.shiftl 1 (N.of_nat i) in
       if r' * r' * r' <=? n then r' else r)
    (rev (seq 0 36)) 0.

(** The first 32 bits of the fractional part of the square root of [p]. *)
Definition frac_sqrt (p : N) : N :=
  N.land (N.sqrt (N.shiftl p 64)) mask32.

(** The first 32 bits of the fractional part of the cube root of [p]. *)
Definition frac_cbrt (p : N) : N :=
  N.land (cube_root (N.shiftl p 96)) mask32.

(** K: from the cube roots of the first 64 primes. *)
Definition round_constants : list N :=
  Eval vm_compute in map frac_cbrt (first_primes 64).

(** The eight working variables a..h, also used for the chaining value. *)
Record regs : Type := Regs {
  ra : N; rb : N; rc : N; rd : N; re : N; rf : N; rg : N; rh : N
}.

(** H(0): from the square roots of the first 8 primes. *)
Definition initial_hash : regs :=
  Eval vm_compute in
    match map frac_sqrt (first_primes 8) with
    | [a; b; c; d; e; f; g; h] => Regs a b c d e f g h
    | _ => Regs 0 0 0 0 0 0 0 0
    end.

(** Padding: a 0x80 byte, zero bytes up to 56 mod 64, then the bit length
    as a 64-bit big-endian integer. *)
Definition be_bytes (count : nat) (x : N) : list N :=
  map (fun i => N.land (N.shiftr x (8 * N.of_nat i)) 0xFF)
      (rev (seq 0 count)).

Definition pad (msg : list N) : list N :=
  let len := List.length msg in
  msg ++ 0x80 :: repeat 0 ((119 - len mod 64) mod 64)
      ++ be_bytes 8 (8 * N.of_nat len).

Fixpoint words_of_bytes (bs : list N) : list N :=
  match bs with
  | b3 :: b2 :: b1 :: b0 :: rest =>
      N.lor (N.shiftl b3 24) (N.lor (N.shiftl b2 16) (N.lor (N.shiftl b1 8) b0))
        :: words_of_bytes rest
  | _ => []
  end.

(** Message schedule, newest word first: [extend n rw] adds [n] words to the
    reversed schedule [rw]. *)
Fixpoint extend (n : nat) (rw : list N) : list N :=
  match n with
  | O => rw
  | S n' =>
      let w := add32 (add32 (small_sigma1 (nth 1 rw 0)) (nth 6 rw 0))
                     (add32 (small_sigma0 (nth 14 rw 0)) (nth 15 rw 0)) in
      extend n' (w :: rw)
  end.

Definition schedule (block : list N) : list N :=
  rev (extend 48 (rev block)).

Definition round (s : regs) (kw : N * N) : regs :=
  let t1 := add32 (add32 (add32 (rh s) (big_sigma1 (re s)))
                         (add32 (ch (re s) (rf s) (rg s)) (fst kw)))
                  (snd kw) in
  let t2 := add32 (big_sigma0 (ra s)) (maj (ra s) (rb s) (rc s)) in
  Regs (add32 t1 t2) (ra s) (rb s) (rc s) (add32 (rd s) t1) (re s) (rf s) (rg s).

Definition compress (h : regs) (block : list N) : regs :=
  let s := fold_left round (combine round_constants (schedule block)) h in
  Regs (add32 (ra h) (ra s)) (add32 (rb h) (rb s))
       (add32 (rc h) (rc s)) (add32 (rd h) (rd s))
       (add32 (re h) (re s)) (add32 (rf h) (rf s))
       (add32 (rg h) (rg s)) (add32 (rh h) (rh s)).

Fixpoint blocks (n : nat) (ws : list N) (h : regs) : regs :=
  match n with
  | O => h
  | S n' => blocks n' (skipn 16 ws) (compress h (firstn 16 ws))
  end.

Definition digest (msg : list N) : regs :=
  let ws := words_of_bytes (pad msg) in
  blocks (List.length ws / 16) ws initial_hash.

(** [hexdigest]: each word as eight lowercase hexadecimal digits. *)
Definition hex_digit (n : N) : ascii :=
  match N.land n 0xF with
  | 0 => "0" | 1 => "1" | 2 => "2" | 3 => "3"
  | 4 => "4" | 5 => "5" | 6 => "6" | 7 => "7"
  | 8 => "8" | 9 => "9" | 10 => "a" | 11 => "b"
  | 12 => "c" | 13 => "d" | 14 => "e" | _ => "f"
  end%char.

Definition hex_word (w : N) : list ascii :=
  map (fun i => hex_digit (N.shiftr w (4 * N.of_nat i))) (rev (seq 0 8)).

Definition regs_words (h : regs) : list N :=
  [ra h; rb h; rc h; rd h; re h; rf h; rg h; rh h].

Definition hexdigest (msg : string) : string :=
  string_of_list_ascii
    (List.concat (map hex_word
       (regs_words (digest (map N_of_ascii (list_ascii_of_string msg)))))).

End SHA256.

(** ** Python values

    Everything the ledger stores is JSON data: blocks and transactions are
    dicts with string keys, built by [new_block] and [new_transaction] or
    decoded from a peer's response.  A dict keeps its entries in insertion
    order.  A [str] is a sequence of code points below 256; a float is
    carried by the text [json.dumps] writes for it, which is all that the
    code consults: [float.__repr__] for a finite float, and [NaN],
    [Infinity] or [-Infinity] otherwise. *)

#[local] Set Warnings "-register-all".
Inductive json : Type :=
| JNull
| JBool (b : bool)
| JInt (z : Z)
| JFloat (repr : string)
| JStr (s : string)
| JList (items : list json)
| JDict (entries : list (string * json)).

Definition dict (A : Type) : Type := list (string * A).

Fixpoint dict_get {A : Type} (k : string) (d : dict A) : option A :=
  match d with
  | [] => None
  | (k', v) :: d' => if String.eqb k k' then Some v else dict_get k d'
  end.

(** [d[k] = v]: an existing key keeps its position, a new key goes last. *)
Fixpoint dict_set {A : Type} (k : string) (v : A) (d : dict A) : dict A :=
  match d with
  | [] => [(k, v)]
  | (k', v') :: d' =>
      if String.eqb k k' then (k, v) :: d' else (k', v') :: dict_set k v d'
  end.

Definition keys {A : Type} (d : dict A) : list string := map fst d.

(** The exceptions that the code of the class can run into. *)
Inductive exn : Type := IndexError | KeyError | TypeError | ConnectionError.

(** Outcome of a Python expression or call.  [Unmodelled] marks the float
    arithmetic that this development does not interpret. *)
Inductive result (A : Type) : Type :=
| Ok (a : A)
| Raise (e : exn)
| Unmodelled.

Arguments Ok {A} a.
Arguments Raise {A} e.
Arguments Unmodelled {A}.

Definition bind {A B : Type} (r : result A) (k : A -> result B) : result B :=
  match r with
  | Ok a => k a
  | Raise e => Raise e
  | Unmodelled => Unmodelled
  end.

Notation "x <- r ;; k" := (bind r (fun x => k))
  (at level 61, r at next level, right associativity).

(** [v[k]] for a string key [k]. *)
Definition subscript (k : string) (v : json) : result json :=
  match v with
  | JDict d =>
      match dict_get k d with
      | Some x => Ok x
      | None => Raise KeyError
      end
  | _ => Raise TypeError
  end.

(** [v[k] = x] for a string key [k]. *)
Definition set_item (k : string) (x : json) (v : json) : result json :=
  match v with
  | JDict d => Ok (JDict (dict_set k x d))
  | _ => Raise TypeError
  end.

(** [v + 1] *)
Definition py_add1 (v : json) : result json :=
  match v with
  | JInt z => Ok (JInt (z + 1))
  | JBool b => Ok (JInt ((if b then 1 else 0) + 1))
  | JFloat _ => Unmodelled
  | _ => Raise TypeError
  end.

(** [v != s] where [s] is a [str]: only an equal [str] compares equal. *)
Definition py_ne_str (v : json) (s : string) : bool :=
  match v with
  | JStr t => negb (String.eqb t s)
  | _ => true
  end.

(** ** json.dumps(block, sort_keys = True) *)

Module Json.

Definition dquote : ascii := "034"%char.
Definition backslash : ascii := "092"%char.

Definition hex4 (n : N) : string :=
  string_of_list_ascii
    (map (fun i => SHA256.hex_digit (N.shiftr n (4 * N.of_nat i))) [3; 2; 1; 0]%nat).

(** One character of [py_encode_basestring_ascii]. *)
Definition escape_char (c : ascii) : string :=
  let n := N_of_ascii c in
  if (n =? 34)%N then String backslash (String dquote "")
  else if (n =? 92)%N then String backslash (String backslash "")
  else if (n =? 10)%N then String backslash "n"
  else if (n =? 13)%N then String backslash "r"
  else if (n =? 9)%N then String backslash "t"
  else if (n =? 8)%N then String backslash "b"
  else if (n =? 12)%N then String backslash "f"
  else if ((32 <=? n) && (n <=? 126))%N then String c ""
  else String backslash ("u" ++ hex4 n).

Fixpoint escape (s : string) : string :=
  match s with
  | EmptyString => ""
  | String c s' => escape_char c ++ escape s'
  end.

Definition quote (s : string) : string :=
  String dquote (escape s ++ String dquote "").

Definition int_repr (z : Z) : string := NilZero.string_of_int (Z.to_int z).

(** [sort_keys]: the items are sorted by key, in code point order. *)
Definition key_leb (a b : string) : bool :=
  match String_as_OT.compare a b with
  | Gt => false
  | _ => true
  end.

Fixpoint insert_item {A : Type} (x : string * A) (l : dict A) : dict A :=
  match l with
  | [] => [x]
  | y :: l' =>
      if key_leb (fst x) (fst y) then x :: l else y :: insert_item x l'
  end.

Definition sort_items {A : Type} (l : dict A) : dict A :=
  fold_right insert_item [] l.

Definition render_item (kv : string * string) : string :=
  quote (fst kv) ++ ": " ++ snd kv.

(** The values of a dict are rendered first and the rendered items are then
    sorted: the order only depends on the keys. *)
Fixpoint dumps (v : json) : string :=
  match v with
  | JNull => "null"
  | JBool true => "true"
  | JBool false => "false"
  | JInt z => int_repr z
  | JFloat r => r
  | JStr s => quote s
  | JList l => "[" ++ String.concat ", " (map dumps l) ++ "]"
  | JDict d =>
      "{" ++ String.concat ", "
               (map render_item
                  (sort_items (map (fun kv => (fst kv, dumps (snd kv))) d)))
          ++ "}"
  end.

End Json.

(** ** Blockchain.hash and Blockchain.valid_proof *)

(** [hashlib.sha256(json.dumps(block, sort_keys = True).encode()).hexdigest()];
    the serialisation is pure ASCII, so its UTF-8 encoding has one byte per
    character.  The function is total here: the errors that [json.dumps]
    itself raises on values beyond the limits of the interpreter (an
    integer with more digits than [str] converts, a nesting deeper than the
    recursion limit) are outside this development. *)
Definition hash (block : json) : string :=
  SHA256.hexdigest (Json.dumps block).

(** [Blockchain.hash(block)[:4] == "0000"] *)
Definition valid_proof (block : json) : bool :=
  String.eqb (substring 0 4 (hash block)) "0000".

(** ** Validator: Blockchain.valid_chain *)

(** The [while] loop of [valid_chain], on the blocks from [current_index]
    on: [last_block] is the block before them. *)
Fixpoint valid_chain_from (last_block : json) (blocks : list json)
  : result bool :=
  match blocks with
  | [] => Ok true
  | block :: blocks' =>
      previous_hash <- subscript "previous_hash" block ;;
      if py_ne_str previous_hash (hash last_block) then Ok false
      else if negb (valid_proof block) then Ok false
      else valid_chain_from block blocks'
  end.

(** [last_block = chain[0]] raises [IndexError] on an empty list. *)
Definition valid_chain (chain : list json) : result bool :=
  match chain with
  | [] => Raise IndexError
  | first :: blocks => valid_chain_from first blocks
  end.

(** ** Miner: Blockchain.proof_of_work *)

(** [block["proof"] += 1] *)
Definition increment_proof (block : json) : result json :=
  p <- subscript "proof" block ;;
  q <- py_add1 p ;;
  set_item "proof" q block.

(** The loop may run for ever, so it is given fuel: [None] means that the
    fuel ran out.  Otherwise the block as the loop left it is returned with
    the outcome of the call. *)
Fixpoint proof_of_work (fuel : nat) (block : json)
  : option (json * result unit) :=
  match fuel with
  | O => None
  | S fuel' =>
      if valid_proof block then Some (block, Ok tt)
      else
        match increment_proof block with
        | Ok block' => proof_of_work fuel' block'
        | Raise e => Some (block, Raise e)
        | Unmodelled => Some (block, Unmodelled)
        end
  end.

(** One iteration of the loop, as a step between the states of the block. *)
Definition pow_step (block block' : json) : Prop :=
  valid_proof block = false /\ increment_proof block = Ok block'.

Inductive pow_steps : json -> json -> Prop :=
| pow_steps_refl : forall b, pow_steps b b
| pow_steps_step : forall b b' b'',
    pow_step b b' -> pow_steps b' b'' -> pow_steps b b''.

(** ** Ledger: the state of a Blockchain object

    [nodes] is a Python set; the list gives its elements in the order in
    which iterating the set yields them. *)
Record Blockchain : Type := mkBlockchain {
  chain : list json;
  pending_transactions : list json;
  nodes : list string
}.

(** [l[-1]] *)
Definition py_last {A : Type} (l : list A) : result A :=
  match rev l with
  | [] => Raise IndexError
  | x :: _ => Ok x
  end.

Definition last_block (self : Blockchain) : result json :=
  py_last (chain self).

(** [previous_hash or self.hash(self.chain[-1])]: [None] and the empty
    string are falsy. *)
Definition previous_hash_or (previous_hash : option string)
    (self : Blockchain) : result string :=
  match previous_hash with
  | Some s =>
      if String.eqb s "" then b <- last_block self ;; Ok (hash b) else Ok s
  | None => b <- last_block self ;; Ok (hash b)
  end.

(** [new_block]; [now] is what [time()] returns.  The block takes the list
    object of the pool and the pool is bound to a fresh empty list, so later
    appends to the pool do not reach the block. *)
Definition new_block (now : string) (proof : json)
    (previous_hash : option string) (self : Blockchain)
  : Blockchain * result json :=
  match previous_hash_or previous_hash self with
  | Ok ph =>
      let block := JDict
        [ ("index", JInt (Z.of_nat (List.length (chain self)) + 1));
          ("timestamp", JFloat now);
          ("transactions", JList (pending_transactions self));
          ("proof", proof);
          ("previous_hash", JStr ph) ] in
      ( {| chain := chain self ++ [block];
           pending_transactions := [];
           nodes := nodes self |},
        Ok block )
  | Raise e => (self, Raise e)
  | Unmodelled => (self, Unmodelled)
  end.

(** [Blockchain.__init__] *)
Definition init (now : string) : Blockchain * result unit :=
  let self := {| chain := []; pending_transactions := []; nodes := [] |} in
  let (self', r) := new_block now (JInt 100) (Some "1") self in
  (self', _ <- r ;; Ok tt).

(** [new_transaction]: the append happens before the return value is
    computed, so it stays when that raises. *)
Definition new_transaction (sender recipient amount : json)
    (self : Blockchain) : Blockchain * result json :=
  let self' :=
    {| chain := chain self;
       pending_transactions :=
         pending_transactions self
           ++ [JDict [("sender", sender); ("recipient", recipient);
                      ("amount", amount)]];
       nodes := nodes self |} in
  (self', b <- last_block self' ;; i <- subscript "index" b ;; py_add1 i).

(** ** Resolver: Blockchain.resolve_conflict *)

(** What [requests.get] gives for a peer: it raises, or it returns a
    response whose body, when the status is 200, decodes to a length and a
    chain. *)
Inductive response : Type :=
| FetchRaises (e : exn)
| Response (status_code : Z) (len : Z) (peer_chain : list json).

Definition network : Type := string -> response.

(** The [for] loop over the neighbours, with its two local variables. *)
Fixpoint scan (fetch : network) (neighbors : list string)
    (max_length : Z) (new_chain : option (list json))
  : result (Z * option (list json)) :=
  match neighbors with
  | [] => Ok (max_length, new_chain)
  | node :: rest =>
      match fetch node with
      | FetchRaises e => Raise e
      | Response status_code len peer_chain =>
          if (status_code =? 200)%Z then
            if (len >? max_length)%Z then
              ok <- valid_chain peer_chain ;;
              if ok then scan fetch rest len (Some peer_chain)
              else scan fetch rest max_length new_chain
            else scan fetch rest max_length new_chain
          else scan fetch rest max_length new_chain
      end
  end.

(** [if new_chain:] a list is truthy when it is not empty. *)
Definition truthy (new_chain : option (list json)) : bool :=
  match new_chain with
  | Some (_ :: _) => true
  | _ => false
  end.

Definition resolve_conflict (fetch : network) (self : Blockchain)
  : Blockchain * result bool :=
  match scan fetch (nodes self) (Z.of_nat (List.length (chain self))) None with
  | Ok (_, new_chain) =>
      if truthy new_chain then
        match new_chain with
        | Some c =>
            ( {| chain := c;
                 pending_transactions := pending_transactions self;
                 nodes := nodes self |},
              Ok true )
        | None => (self, Ok false)
        end
      else (self, Ok false)
  | Raise e => (self, Raise e)
  | Unmodelled => (self, Unmodelled)
  end.

(** ** Concrete blocks

    A three-block chain as a node would hold it; the proofs of the second and
    third block were mined. *)
Module Sample.

Definition reward : json :=
  JDict [("sender", JStr "0"); ("recipient", JStr "node-a"); ("amount", JInt 1)].

Definition genesis : json :=
  JDict [("index", JInt 1); ("timestamp", JFloat "1700000000.25");
         ("transactions", JList []); ("proof", JInt 100);
         ("previous_hash", JStr "1")].

Definition second (proof : Z) : json :=
  JDict [("index", JInt 2); ("timestamp", JFloat "1700000060.5");
         ("transactions", JList [reward]); ("proof", JInt proof);
         ("previous_hash",
          JStr "a8d603754772c1ef5d054c356d34c4d8d5c27ca3147da09dae492e2882b804a6")].

Definition third : json :=
  JDict [("index", JInt 3); ("timestamp", JFloat "1700000120.75");
         ("transactions", JList []); ("proof", JInt 64907);
         ("previous_hash",
          JStr "0000f8359b6f34086d7ddba9f9f5834b2365f0060f3fd080e0af68b3143dfa3a")].

Definition chain3 : list json := [genesis; second 66510; third].

(** A block whose hash has more than four leading zeros. *)
Definition deep : json :=
  JDict [("index", JInt 2); ("timestamp", JFloat "1700000060.5");
         ("transactions", JList []); ("proof", JInt 719245);
         ("previous_hash", JStr "1")].

End Sample.

(** ** Predicates and data used in the statements *)

(** The number of zero characters a string starts with. *)
Fixpoint leading_zeros (s : string) : nat :=
  match s with
  | EmptyString => 0
  | String c s' => if Ascii.eqb c "0" then S (leading_zeros s') else 0
  end.

(** The dict that [new_transaction] appends to the pool. *)
Definition transfer (sender recipient amount : json) : json :=
  JDict [("sender", sender); ("recipient", recipient); ("amount", amount)].

(** A block-shaped record: a dict with a [previous_hash] entry. *)
Definition has_previous_hash (block : json) : Prop :=
  exists v, subscript "previous_hash" block = Ok v.

(** The block at position [S i] breaks the chain: its [previous_hash] is not
    the hash of the block at position [i], or its proof is not valid. *)
Definition bad_at (chain : list json) (i : nat) : Prop :=
  exists prev block previous_hash,
    nth_error chain i = Some prev
    /\ nth_error chain (S i) = Some block
    /\ subscript "previous_hash" block = Ok previous_hash
    /\ (previous_hash <> JStr (hash prev) \/ valid_proof block = false).

(** The block with entries [d] after its proof was set to [z]. *)
Definition with_proof (d : dict json) (z : Z) : json :=
  JDict (dict_set "proof" (JInt z) d).

(** [block["proof"]] when it is an [int]. *)
Definition proof_of (block : json) : option Z :=
  match subscript "proof" block with
  | Ok (JInt z) => Some z
  | _ => None
  end.

(** Two values are the same logical value when they agree up to the order in
    which the entries of their dicts were inserted. *)
Inductive json_equiv : json -> json -> Prop :=
| equiv_null : json_equiv JNull JNull
| equiv_bool : forall b, json_equiv (JBool b) (JBool b)
| equiv_int : forall z, json_equiv (JInt z) (JInt z)
| equiv_float : forall r, json_equiv (JFloat r) (JFloat r)
| equiv_str : forall s, json_equiv (JStr s) (JStr s)
| equiv_list : forall l l',
    Forall2 json_equiv l l' -> json_equiv (JList l) (JList l')
| equiv_dict : forall d m d',
    Permutation d m ->
    Forall2 (fun x y => fst x = fst y /\ json_equiv (snd x) (snd y)) m d' ->
    json_equiv (JDict d) (JDict d').

(** The keys of a Python dict are pairwise distinct. *)
Fixpoint distinct (l : list string) : bool :=
  match l with
  | [] => true
  | k :: l' => negb (existsb (String.eqb k) l') && distinct l'
  end.

(** Every dict inside the value has distinct keys. *)
Fixpoint json_wf (v : json) : bool :=
  match v with
  | JList l => forallb json_wf l
  | JDict d => distinct (keys d) && forallb (fun kv => json_wf (snd kv)) d
  | _ => true
  end.

(** The characters [0-9a-f]. *)
Definition is_lower_hex (c : ascii) : bool :=
  let n := N_of_ascii c in
  ((48 <=? n) && (n <=? 57) || (97 <=? n) && (n <=? 102))%N.

(** The order in which [sort_items] arranges the items. *)
Definition item_le {A : Type} (x y : string * A) : Prop :=
  Json.key_leb (fst x) (fst y) = true.

(** The items of a dict with their values rendered, before sorting. *)
Definition render_values (d : dict json) : dict string :=
  map (fun kv => (fst kv, Json.dumps (snd kv))) d.

(** A peer a scan with running maximum [m] records: it answers with status
    200, reports a length above [m] and its chain passes [valid_chain]. *)
Definition eligible (fetch : network) (m : Z) (node : string) : Prop :=
  exists len c,
    fetch node = Response 200 len c /\ (m < len)%Z /\ valid_chain c = Ok true.


(** [w], reporting [len] with chain [c], is the first peer in scan order
    among those with the greatest reported length over the valid chains. *)
Definition winner (fetch : network) (neighbors : list string)
    (w : string) (len : Z) (c : list json) : Prop :=
  exists pre post,
    neighbors = pre ++ w :: post
    /\ fetch w = Response 200 len c
    /\ valid_chain c = Ok true
    /\ (forall n len' c', In n pre -> fetch n = Response 200 len' c' ->
          valid_chain c' = Ok true -> (len' < len)%Z)
    /\ (forall n len' c', In n post -> fetch n = Response 200 len' c' ->
          valid_chain c' = Ok true -> (len' <= len)%Z).

(** [len(self.chain)] *)
Definition local_length (self : Blockchain) : Z :=
  Z.of_nat (List.length (chain self)).

(** The second block of the sample chain with the fields of the block and
    of its transaction inserted in the opposite order. *)
Definition second_reordered : json :=
  JDict [("previous_hash",
          JStr "a8d603754772c1ef5d054c356d34c4d8d5c27ca3147da09dae492e2882b804a6");
         ("proof", JInt 66510);
         ("transactions",
          JList [JDict [("amount", JInt 1); ("recipient", JStr "node-a");
                        ("sender", JStr "0")]]);
         ("timestamp", JFloat "1700000060.5");
         ("index", JInt 2)].

(** A node holding only its genesis block, with one pending transaction and
    two registered peers, and some networks around it. *)
Definition local_node : Blockchain :=
  {| chain := [Sample.genesis];
     pending_transactions := [Sample.reward];
     nodes := ["peer1"; "peer2"] |}.

Definition unreachable : response := FetchRaises ConnectionError.

(** peer1 holds a chain of length 1 and peer2 one of length 3. *)
Definition net_longer : network := fun node =>
  if String.eqb node "peer1" then Response 200 1 [Sample.genesis]
  else if String.eqb node "peer2" then Response 200 3 Sample.chain3
  else unreachable.


(** peer1 answers 503 and peer2 holds the longer chain. *)
Definition net_busy : network := fun node =>
  if String.eqb node "peer1" then Response 503 0 []
  else if String.eqb node "peer2" then Response 200 3 Sample.chain3
  else unreachable.

(** peer1 cannot be reached and peer2 holds the longer chain. *)
Definition net_down : network := fun node =>
  if String.eqb node "peer1" then unreachable
  else if String.eqb node "peer2" then Response 200 3 Sample.chain3
  else unreachable.

(** Induction on values that goes through the items of lists and the
    values of dicts. *)
Section JsonInduction.
Variable P : json -> Prop.
Hypothesis Hnull : P JNull.
Hypothesis Hbool : forall b, P (JBool b).
Hypothesis Hint : forall z, P (JInt z).
Hypothesis Hfloat : forall r, P (JFloat r).
Hypothesis Hstr : forall s, P (JStr s).
Hypothesis Hlist : forall l, Forall P l -> P (JList l).
Hypothesis Hdict : forall d, Forall (fun kv => P (snd kv)) d -> P (JDict d).

Fixpoint json_nested_ind (v : json) : P v :=
  match v with
  | JNull => Hnull
  | JBool b => Hbool b
  | JInt z => Hint z
  | JFloat r => Hfloat r
  | JStr s => Hstr s
  | JList l =>
      Hlist l
        ((fix go (l : list json) : Forall P l :=
            match l with
            | [] => Forall_nil _
            | x :: t => Forall_cons x (json_nested_ind x) (go t)
            end) l)
  | JDict d =>
      Hdict d
        ((fix go (d : list (string * json))
            : Forall (fun kv => P (snd kv)) d :=
            match d with
            | [] => Forall_nil _
            | kv :: t => Forall_cons kv (json_nested_ind (snd kv)) (go t)
            end) d)
  end.
End JsonInduction.

(** ** The routes of the Flask application

    A route takes the decoded request and the ledger of the node and gives
    the ledger it leaves with the response it returns, or the exception that
    escapes it.  [request.get_json()] is taken already decoded, [JNull]
    standing for [None]. *)

(** [bool(v)] *)
Definition truthy_json (v : json) : bool :=
  match v with
  | JNull => false
  | JBool b => b
  | JInt z => negb (z =? 0)%Z
  | JFloat r => negb (String.eqb r "0.0" || String.eqb r "-0.0")
  | JStr s => negb (String.eqb s "")
  | JList l => match l with [] => false | _ => true end
  | JDict d => match d with [] => false | _ => true end
  end.

(** [k in v] for a string [k]: a key of a dict, an element of a list, a
    substring of a string; the other values are not iterable. *)
Definition py_in (k : string) (v : json) : result bool :=
  match v with
  | JDict d => Ok (match dict_get k d with Some _ => true | None => false end)
  | JList l => Ok (existsb (fun x => negb (py_ne_str x k)) l)
  | JStr s => Ok (match index 0 k s with Some _ => true | None => false end)
  | _ => Raise TypeError
  end.

(** [all(k in values for k in required)] *)
Fixpoint all_in (required : list string) (values : json) : result bool :=
  match required with
  | [] => Ok true
  | k :: required' =>
      present <- py_in k values ;;
      if present then all_in required' values else Ok false
  end.

(** What a route returns: a text or [jsonify] of a value, with a status. *)
Inductive body : Type :=
| Text (s : string)
| Jsonify (v : json).

Definition http_response : Type := (body * Z)%type.

(** [f"{index}"] for the value [new_transaction] returns. *)
Definition format_index (index : json) : result string :=
  match index with
  | JInt z => Ok (Json.int_repr z)
  | _ => Unmodelled
  end.

Module Routes.

(** [/mine].  The block that [new_block] returns is the object it appended
    to the chain, so what [proof_of_work] does to it shows in [chain[-1]]. *)
Definition mine (fuel : nat) (now node_identifier : string)
    (self : Blockchain) : option (Blockchain * result http_response) :=
  let (self1, r1) :=
    new_transaction (JStr "0") (JStr node_identifier) (JInt 1) self in
  match r1 with
  | Ok _ =>
      let (self2, r2) := new_block now (JInt 0) None self1 in
      match r2 with
      | Ok block =>
          match proof_of_work fuel block with
          | None => None
          | Some (block', r3) =>
              let self3 :=
                {| chain := removelast (chain self2) ++ [block'];
                   pending_transactions := pending_transactions self2;
                   nodes := nodes self2 |} in
              Some
                (self3,
                 _ <- r3 ;;
                 index <- subscript "index" block' ;;
                 transactions <- subscript "transactions" block' ;;
                 proof <- subscript "proof" block' ;;
                 previous_hash <- subscript "previous_hash" block' ;;
                 Ok (Jsonify
                       (JDict [("message", JStr "New block mined");
                               ("index", index);
                               ("transactions", transactions);
                               ("proof", proof);
                               ("previous_hash", previous_hash)]),
                     200%Z))
          end
      | Raise e => Some (self2, Raise e)
      | Unmodelled => Some (self2, Unmodelled)
      end
  | Raise e => Some (self1, Raise e)
  | Unmodelled => Some (self1, Unmodelled)
  end.

Definition required : list string := ["sender"; "recipient"; "amount"].

(** [/transactions/new] *)
Definition new_transaction (values : json) (self : Blockchain)
  : Blockchain * result http_response :=
  if negb (truthy_json values) then (self, Ok (Text "Missing body", 400%Z))
  else
    match all_in required values with
    | Ok false => (self, Ok (Text "Missing values", 400%Z))
    | Ok true =>
        match
          (sender <- subscript "sender" values ;;
           recipient <- subscript "recipient" values ;;
           amount <- subscript "amount" values ;;
           Ok (sender, recipient, amount))
        with
        | Ok (sender, recipient, amount) =>
            let (self', r) := new_transaction sender recipient amount self in
            (self',
             index <- r ;;
             text <- format_index index ;;
             Ok (Jsonify
                   (JDict [("message",
                            JStr ("Transaction will be added to block "
                                    ++ text))]),
                 201%Z))
        | Raise e => (self, Raise e)
        | Unmodelled => (self, Unmodelled)
        end
    | Raise e => (self, Raise e)
    | Unmodelled => (self, Unmodelled)
    end.



End Routes.

(** ** Further predicates *)

(** Two outcomes agree: the same exception, or values that are the same
    logical value. *)
Definition result_equiv (r r' : result json) : Prop :=
  match r, r' with
  | Ok v, Ok v' => json_equiv v v'
  | Raise e, Raise e' => e = e'
  | _, _ => False
  end.

(** The block at position [i] carries the index [i + 1]. *)
Definition well_indexed (chain : list json) : Prop :=
  forall i b,
    nth_error chain i = Some b ->
    subscript "index" b = Ok (JInt (Z.of_nat i + 1)).

(** Every block after the first names the hash of its predecessor and has a
    valid proof. *)
Definition linked (chain : list json) : Prop :=
  forall i prev b,
    nth_error chain i = Some prev ->
    nth_error chain (S i) = Some b ->
    subscript "previous_hash" b = Ok (JStr (hash prev))
    /\ valid_proof b = true.

(** The entries of the block that [/mine] hands to [proof_of_work] on a
    ledger whose last block is [previous]. *)
Definition candidate (now node_identifier : string) (self : Blockchain)
    (previous : json) : dict json :=
  [ ("index", JInt (Z.of_nat (List.length (chain self)) + 1));
    ("timestamp", JFloat now);
    ("transactions",
     JList (pending_transactions self
              ++ [transfer (JStr "0") (JStr node_identifier) (JInt 1)]));
    ("proof", JInt 0);
    ("previous_hash", JStr (hash previous)) ].

(** The body of the response of [/mine] for the mined block. *)
Definition mined_response (block : dict json) (proof : Z) : json :=
  JDict [ ("message", JStr "New block mined");
          ("index", match dict_get "index" block with
                    | Some v => v | None => JNull end);
          ("transactions", match dict_get "transactions" block with
                           | Some v => v | None => JNull end);
          ("proof", JInt proof);
          ("previous_hash", match dict_get "previous_hash" block with
                            | Some v => v | None => JNull end) ].

(** The ledgers a node gets to by its own routes, without consensus, as
    they stand between requests served one after another. *)
Inductive node_state : Blockchain -> Prop :=
| node_init : forall now, node_state (fst (init now))
| node_mine : forall fuel now node_identifier self self' r,
    node_state self ->
    Routes.mine fuel now node_identifier self = Some (self', r) ->
    node_state self'
| node_transaction : forall values self,
    node_state self -> node_state (fst (Routes.new_transaction values self)).

(** The ledgers the methods of the class reach from a fresh one, consensus
    apart: [new_block] is called here with any proof and any previous hash. *)
Inductive ledger_state : Blockchain -> Prop :=
| ledger_init : forall now, ledger_state (fst (init now))
| ledger_transaction : forall sender recipient amount self,
    ledger_state self ->
    ledger_state (fst (new_transaction sender recipient amount self))
| ledger_block : forall now proof previous_hash self,
    ledger_state self ->
    ledger_state (fst (new_block now proof previous_hash self))
| ledger_mined : forall fuel block' r self,
    ledger_state self ->
    (b <- last_block self ;; Ok (proof_of_work fuel b)) = Ok (Some (block', r)) ->
    ledger_state {| chain := removelast (chain self) ++ [block'];
                    pending_transactions := pending_transactions self;
                    nodes := nodes self |}.

(** Every peer that answers 200 reports the length its chain has, as
    [/chain] does. *)
Definition truthful (fetch : network) (neighbors : list string) : Prop :=
  forall n status_code len c,
    In n neighbors -> fetch n = Response status_code len c ->
    status_code = 200%Z -> len = Z.of_nat (List.length c).


(** Printable ASCII, the characters [json.dumps] lets through. *)
Definition printable (c : ascii) : bool :=
  let n := N_of_ascii c in ((32 <=? n) && (n <=? 126))%N.

Definition all_printable (s : string) : bool :=
  forallb printable (list_ascii_of_string s).

(** The texts of all the floats inside a value are printable ASCII. *)
Fixpoint floats_printable (v : json) : bool :=
  match v with
  | JFloat r => all_printable r
  | JList l => forallb floats_printable l
  | JDict d => forallb (fun kv => floats_printable (snd kv)) d
  | _ => true
  end.

(** peer1 holds the longer chain and peer2 cannot be reached. *)
Definition net_cut : network := fun node =>
  if String.eqb node "peer1" then Response 200 3 Sample.chain3
  else unreachable.


(** peer1 holds the longer chain and peer2 answers with two values that are
    not blocks. *)
Definition net_junk : network := fun node =>
  if String.eqb node "peer1" then Response 200 3 Sample.chain3
  else if String.eqb node "peer2" then Response 200 2 [JNull; JNull]
  else unreachable.

(** The ledgers a node gets to by requests served one after another on its
    own routes, every [/mine] among them having answered 200. *)
Inductive served_state : Blockchain -> Prop :=
| served_init : forall now, served_state (fst (init now))
| served_mine : forall fuel now node_identifier self self' reply,
    served_state self ->
    Routes.mine fuel now node_identifier self
    = Some (self', Ok (reply, 200%Z)) ->
    served_state self'
| served_transaction : forall values self,
    served_state self ->
    served_state (fst (Routes.new_transaction values self)).

(** A node that started at 1700000000.25 and mined one block for
    "node-23720" at 1700000060.5; the first valid proof of that block is 3. *)
Definition mined_node : Blockchain :=
  {| chain :=
       chain (fst (init "1700000000.25"))
         ++ [with_proof
               (candidate "1700000060.5" "node-23720"
                  (fst (init "1700000000.25")) Sample.genesis) 3];
     pending_transactions := [];
     nodes := [] |}.

(** * Properties *)

Example sha256_constants :
  nth 0 SHA256.round_constants 0%N = 0x428a2f98%N
  /\ nth 63 SHA256.round_constants 0%N = 0xc67178f2%N
  /\ List.length SHA256.round_constants = 64%nat
  /\ SHA256.ra SHA256.initial_hash = 0x6a09e667%N
  /\ SHA256.rh SHA256.initial_hash = 0x5be0cd19%N.
Proof. repeat split. Qed.

Example sha256_abc :
  SHA256.hexdigest "abc"
  = "ba7816bf8f01cfea414140de5dae2223b00361a396177a9cb410ff61f20015ad".
Proof. vm_compute. reflexivity. Qed.

Example sha256_two_blocks :
  SHA256.hexdigest "abcdbcdecdefdefgefghfghighijhijkijkljklmklmnlmnomnopnopq"
  = "248d6a61d20638b8e5c026930c3e6039a33ce45964ff2167f6ecedd419db06c1".
Proof. vm_compute. reflexivity. Qed.

Example hash_genesis :
  hash Sample.genesis
  = "a8d603754772c1ef5d054c356d34c4d8d5c27ca3147da09dae492e2882b804a6".
Proof. vm_compute. reflexivity. Qed.

Example hash_second :
  hash (Sample.second 66510)
  = "0000f8359b6f34086d7ddba9f9f5834b2365f0060f3fd080e0af68b3143dfa3a".
Proof. vm_compute. reflexivity. Qed.

Example hash_deep :
  hash Sample.deep
  = "000000a449e4cf3161cd36c83d13336a4770397404c661a5b668b6c0f050cead".
Proof. vm_compute. reflexivity. Qed.

Example valid_chain3 : valid_chain Sample.chain3 = Ok true.
Proof. vm_compute. reflexivity. Qed.

Example second_unmined : valid_proof (Sample.second 66509) = false.
Proof. vm_compute. reflexivity. Qed.

(** The first block of the sample chain has no valid proof of its own, and
    the chain is valid all the same. *)
Example genesis_not_checked :
  valid_proof Sample.genesis = false /\ valid_chain Sample.chain3 = Ok true.
Proof. split; vm_compute; reflexivity. Qed.

(** ** Proof validity *)

Lemma prefix4_leading_zeros (s : string) :
  String.eqb (substring 0 4 s) "0000" = true <-> 4 <= leading_zeros s.
Proof.
  destruct s as [|a [|b [|c [|d r]]]];
    cbn [substring String.eqb leading_zeros];
    repeat match goal with
           | |- context [Ascii.eqb ?x "0"] => destruct (Ascii.eqb x "0")
           end;
    cbn [andb substring]; split; intro H; try discriminate H; try lia;
    try reflexivity.
  destruct r; reflexivity.
Qed.

(** C6: a block passes [valid_proof] exactly when its hash starts with at
    least four zero characters; five or more zeros pass as well, the test
    being a prefix match and not an exact count. *)
Theorem valid_proof_leading_zeros (b : json) :
  (valid_proof b = true <-> 4 <= leading_zeros (hash b))
  /\ (5 <= leading_zeros (hash b) -> valid_proof b = true).
Proof.
  unfold valid_proof. split.
  - apply prefix4_leading_zeros.
  - intro H. apply prefix4_leading_zeros. lia.
Qed.

Lemma valid_proof_leading_zeros_witness :
  5 <= leading_zeros (hash Sample.deep) /\ valid_proof Sample.deep = true.
Proof.
  assert (H : 5 <= leading_zeros (hash Sample.deep)).
  { rewrite hash_deep. cbn. lia. }
  split; [exact H | exact (proj2 (valid_proof_leading_zeros Sample.deep) H)].
Defined.

(** ** Ledger *)

(** C5: a freshly constructed ledger holds exactly one block, with index 1,
    previous_hash "1" and proof 100, and its pool of pending transactions is
    empty. *)
Theorem fresh_ledger (now : string) :
  exists block,
    init now
    = ({| chain := [block]; pending_transactions := []; nodes := [] |}, Ok tt)
    /\ List.length (chain (fst (init now))) = 1%nat
    /\ subscript "index" block = Ok (JInt 1)
    /\ subscript "previous_hash" block = Ok (JStr "1")
    /\ subscript "proof" block = Ok (JInt 100)
    /\ pending_transactions (fst (init now)) = [].
Proof.
  eexists. repeat split; reflexivity.
Qed.

(** C8: on a fresh ledger, [new_transaction A B 10] followed by [new_block p]
    returns a block whose transactions are the single transfer from A to B
    of 10, and leaves the pool empty; the next [new_transaction] returns the
    index of the last block plus one. *)
Theorem transaction_flow (now now' : string) (A B p C D amount : json) :
  exists self1 self2 self3 block i,
    new_transaction A B (JInt 10) (fst (init now)) = (self1, Ok (JInt 2))
    /\ new_block now' p None self1 = (self2, Ok block)
    /\ subscript "transactions" block = Ok (JList [transfer A B (JInt 10)])
    /\ pending_transactions self2 = []
    /\ last_block self2 = Ok block
    /\ subscript "index" block = Ok (JInt i)
    /\ new_transaction C D amount self2 = (self3, Ok (JInt (i + 1)))
    /\ pending_transactions self3 = [transfer C D amount].
Proof.
  do 5 eexists. repeat split; reflexivity.
Qed.

(** ** Validator *)

Lemma py_ne_str_spec (v : json) (s : string) :
  py_ne_str v s = true <-> v <> JStr s.
Proof.
  destruct v; cbn [py_ne_str];
    try (split; [intros _ H; discriminate H | reflexivity]).
  destruct (String.eqb_spec s0 s) as [->|Hne]; cbn [negb]; split.
  - discriminate.
  - intros H. now elim H.
  - intros _ H. injection H as H. contradiction.
  - reflexivity.
Qed.

Lemma py_ne_str_false (v : json) (s : string) :
  py_ne_str v s = false -> v = JStr s.
Proof.
  destruct v; cbn [py_ne_str]; try discriminate.
  destruct (String.eqb_spec s0 s) as [->|Hne]; [reflexivity | discriminate].
Qed.

Lemma bad_at_shift (a : json) (l : list json) (i : nat) :
  bad_at (a :: l) (S i) <-> bad_at l i.
Proof. unfold bad_at. cbn [nth_error]. reflexivity. Qed.

Lemma valid_chain_from_false (blocks : list json) :
  forall last_block,
    Forall has_previous_hash blocks ->
    (valid_chain_from last_block blocks = Ok false
     <-> exists i, bad_at (last_block :: blocks) i).
Proof.
  induction blocks as [|b t IH]; intros last_block Hwf.
  - cbn [valid_chain_from]. split; [discriminate|].
    intros [i (prev & blk & ph & _ & H2 & _)].
    destruct i; discriminate H2.
  - inversion Hwf as [|? ? [ph Hph] Hwf']; subst.
    cbn [valid_chain_from]. rewrite Hph. cbn [bind].
    destruct (py_ne_str ph (hash last_block)) eqn:Hne.
    + split; [intros _|reflexivity].
      exists 0%nat, last_block, b, ph. repeat split; trivial.
      left. now apply py_ne_str_spec.
    + destruct (valid_proof b) eqn:Hvp; cbn [negb].
      * rewrite (IH b Hwf'). split; intros [i Hbad].
        -- exists (S i). exact (proj2 (bad_at_shift last_block (b :: t) i) Hbad).
        -- destruct i as [|i];
             [|exists i; exact (proj1 (bad_at_shift last_block (b :: t) i) Hbad)].
           destruct Hbad as (prev & blk & ph' & H1 & H2 & H3 & H4).
           cbn in H1, H2. injection H1 as <-. injection H2 as <-.
           rewrite Hph in H3. injection H3 as <-.
           apply py_ne_str_false in Hne.
           destruct H4 as [H4|H4]; [contradiction | congruence].
      * split; [intros _|reflexivity].
        exists 0%nat, last_block, b, ph. repeat split; trivial. now right.
Qed.

Lemma valid_chain_from_returns (blocks : list json) :
  forall last_block,
    Forall has_previous_hash blocks ->
    exists ok, valid_chain_from last_block blocks = Ok ok.
Proof.
  induction blocks as [|b t IH]; intros last_block Hwf.
  - now exists true.
  - inversion Hwf as [|? ? [ph Hph] Hwf']; subst.
    cbn [valid_chain_from]. rewrite Hph. cbn [bind].
    destruct (py_ne_str ph (hash last_block)); [now exists false|].
    destruct (valid_proof b); cbn [negb]; [apply IH; assumption|now exists false].
Qed.

Lemma last_default {A : Type} (l : list A) :
  forall (x d d' : A), last (x :: l) d = last (x :: l) d'.
Proof.
  induction l as [|y l IH]; intros x d d'; [reflexivity|].
  change (last (y :: l) d = last (y :: l) d'). apply IH.
Qed.

Lemma last_cons {A : Type} (a d : A) (l : list A) :
  last (a :: l) d = last l a.
Proof.
  destruct l as [|x l]; [reflexivity|].
  change (last (x :: l) d = last (x :: l) a). apply last_default.
Qed.

(** The loop on [pre ++ rest] runs on [pre] and, when no block of [pre]
    fails, goes on with [rest] from the last block it accepted. *)
Lemma valid_chain_from_app (pre rest : list json) :
  forall first,
    valid_chain_from first (pre ++ rest)
    = (ok <- valid_chain_from first pre ;;
       if ok then valid_chain_from (last pre first) rest else Ok false).
Proof.
  induction pre as [|b t IH]; intros first; [reflexivity|].
  rewrite last_cons. cbn [app valid_chain_from].
  destruct (subscript "previous_hash" b) as [ph| |]; cbn [bind]; trivial.
  destruct (py_ne_str ph (hash first)); [reflexivity|].
  destruct (valid_proof b); cbn [negb]; [apply IH | reflexivity].
Qed.

(** C1, as amended: on a chain of block-shaped records, that is a first
    block followed by dicts that have a [previous_hash] entry,
    [valid_chain] returns false
    exactly when some block after the first has a [previous_hash] other than
    the hash of its predecessor or an invalid proof, and true otherwise; the
    first block is only hashed, its own proof is not looked at.  It answers
    at the first failing block: whatever follows that block, well formed or
    not, does not change the result. *)
Theorem valid_chain_spec (first : json) (blocks : list json) :
  Forall has_previous_hash blocks ->
  (valid_chain (first :: blocks) = Ok false
   <-> exists i, bad_at (first :: blocks) i)
  /\ (valid_chain (first :: blocks) = Ok true
      <-> ~ exists i, bad_at (first :: blocks) i)
  /\ (forall block previous_hash later,
        valid_chain (first :: blocks) = Ok true ->
        subscript "previous_hash" block = Ok previous_hash ->
        previous_hash <> JStr (hash (last blocks first))
        \/ valid_proof block = false ->
        valid_chain (first :: blocks ++ block :: later) = Ok false).
Proof.
  intros Hwf. cbn [valid_chain].
  pose proof (valid_chain_from_false blocks first Hwf) as Hfalse.
  destruct (valid_chain_from_returns blocks first Hwf) as [ok Hok].
  repeat split.
  - apply Hfalse.
  - apply Hfalse.
  - intros Htrue Hbad. apply Hfalse in Hbad. congruence.
  - intros Hnone. destruct ok; [assumption|].
    elim Hnone. now apply Hfalse.
  - intros block ph later Htrue Hph Hbad.
    rewrite valid_chain_from_app, Htrue. cbn [bind valid_chain_from].
    rewrite Hph. cbn [bind].
    destruct Hbad as [Hbad|Hbad].
    + apply py_ne_str_spec in Hbad. now rewrite Hbad.
    + rewrite Hbad. cbn [negb]. now destruct (py_ne_str _ _).
Qed.

Lemma valid_chain_spec_witness :
  Forall has_previous_hash [Sample.second 66510]
  /\ valid_chain
       (Sample.genesis :: [Sample.second 66510] ++ Sample.second 66509 :: [JNull])
     = Ok false.
Proof.
  assert (Hwf : Forall has_previous_hash [Sample.second 66510]).
  { repeat constructor. eexists. reflexivity. }
  split; [exact Hwf|].
  destruct (valid_chain_spec Sample.genesis [Sample.second 66510] Hwf)
    as (_ & _ & Hfirst).
  apply (Hfirst (Sample.second 66509)
           (JStr "a8d603754772c1ef5d054c356d34c4d8d5c27ca3147da09dae492e2882b804a6")
           [JNull]).
  - vm_compute. reflexivity.
  - reflexivity.
  - right. vm_compute. reflexivity.
Defined.

(** C1 as stated, for every chain, fails: a block without a
    [previous_hash] entry fails [valid_proof], and [valid_chain] raises
    [KeyError] on it instead of returning false. *)
Lemma unreadable_block_raises :
  valid_proof (JDict [("index", JInt 2)]) = false
  /\ valid_chain [Sample.genesis; JDict [("index", JInt 2)]] = Raise KeyError
  /\ ~ (forall chain : list json,
          (exists i prev block,
             nth_error chain i = Some prev
             /\ nth_error chain (S i) = Some block
             /\ (subscript "previous_hash" block <> Ok (JStr (hash prev))
                 \/ valid_proof block = false)) ->
          valid_chain chain = Ok false).
Proof.
  assert (Hv : valid_proof (JDict [("index", JInt 2)]) = false)
    by (vm_compute; reflexivity).
  split; [exact Hv|]. split; [reflexivity|].
  intros H.
  specialize (H [Sample.genesis; JDict [("index", JInt 2)]]).
  assert (Hr : valid_chain [Sample.genesis; JDict [("index", JInt 2)]]
               = Raise KeyError) by reflexivity.
  rewrite Hr in H. discriminate H.
  exists 0%nat, Sample.genesis, (JDict [("index", JInt 2)]).
  split; [reflexivity|]. split; [reflexivity|]. now right.
Qed.

(** C10: a chain of exactly one block is valid whatever that block is: the
    loop body never runs, so the block is neither compared with the local
    genesis block nor constrained in any field. *)
Theorem valid_chain_single (chain : list json) :
  List.length chain = 1%nat -> valid_chain chain = Ok true.
Proof.
  destruct chain as [|b [|c t]]; cbn [List.length]; intros H;
    try discriminate H.
  reflexivity.
Qed.

Lemma valid_chain_single_witness :
  valid_chain [JDict [("index", JInt 99); ("proof", JStr "none")]] = Ok true.
Proof. apply valid_chain_single. reflexivity. Defined.

(** C10 as stated, for every chain of length at most 1, fails on the empty
    chain: [chain[0]] raises [IndexError] before the loop. *)
Lemma valid_chain_empty_raises :
  valid_chain [] = Raise IndexError
  /\ ~ (forall chain : list json,
          (List.length chain <= 1)%nat -> valid_chain chain = Ok true).
Proof.
  split; [reflexivity|].
  intros H. specialize (H [] (Nat.le_0_l 1)). discriminate H.
Qed.

(** ** Miner *)

Lemma dict_get_set {A : Type} (k : string) (v : A) (d : dict A) :
  dict_get k (dict_set k v d) = Some v.
Proof.
  induction d as [|[k' v'] d IH]; cbn [dict_set dict_get].
  - now rewrite String.eqb_refl.
  - destruct (String.eqb k k') eqn:E; cbn [dict_get].
    + now rewrite String.eqb_refl.
    + now rewrite E.
Qed.

Lemma dict_set_set {A : Type} (k : string) (v w : A) (d : dict A) :
  dict_set k w (dict_set k v d) = dict_set k w d.
Proof.
  induction d as [|[k' v'] d IH]; cbn [dict_set].
  - now rewrite String.eqb_refl.
  - destruct (String.eqb k k') eqn:E; cbn [dict_set].
    + now rewrite String.eqb_refl.
    + rewrite E. now rewrite IH.
Qed.

Lemma dict_set_same {A : Type} (k : string) (v : A) (d : dict A) :
  dict_get k d = Some v -> dict_set k v d = d.
Proof.
  induction d as [|[k' v'] d IH]; cbn [dict_set dict_get]; [discriminate|].
  destruct (String.eqb_spec k k') as [->|Hne]; intros H.
  - now injection H as ->.
  - now rewrite IH.
Qed.

Lemma increment_with_proof (d : dict json) (p : Z) :
  dict_get "proof" d = Some (JInt p) ->
  increment_proof (JDict d) = Ok (with_proof d (p + 1)).
Proof.
  intros H. unfold increment_proof. cbn [subscript]. rewrite H. reflexivity.
Qed.

Lemma with_proof_again (d : dict json) (p q : Z) :
  with_proof (dict_set "proof" (JInt p) d) q = with_proof d q.
Proof. unfold with_proof. now rewrite dict_set_set. Qed.

Lemma with_proof_same (d : dict json) (p : Z) :
  dict_get "proof" d = Some (JInt p) -> with_proof d p = JDict d.
Proof. intros H. unfold with_proof. now rewrite dict_set_same. Qed.

(** The search from proof [p] stops at the first valid proof [p + k]. *)
Lemma proof_of_work_first_valid (n : nat) :
  forall (d : dict json) (p : Z),
    dict_get "proof" d = Some (JInt p) ->
    valid_proof (with_proof d (p + Z.of_nat n)) = true ->
    exists k,
      (k <= n)%nat
      /\ (forall fuel, (k < fuel)%nat ->
            proof_of_work fuel (JDict d)
            = Some (with_proof d (p + Z.of_nat k), Ok tt))
      /\ valid_proof (with_proof d (p + Z.of_nat k)) = true
      /\ (forall j, (j < k)%nat ->
            valid_proof (with_proof d (p + Z.of_nat j)) = false).
Proof.
  induction n as [|n IH]; intros d p Hget Hvalid.
  - exists 0%nat. rewrite Z.add_0_r in *.
    rewrite (with_proof_same d p Hget) in *.
    repeat split; trivial; [|intros j Hj; lia].
    intros [|fuel] Hfuel; [lia|]. cbn [proof_of_work]. now rewrite Hvalid.
  - destruct (valid_proof (JDict d)) eqn:Hnow.
    + exists 0%nat. rewrite Z.add_0_r.
      rewrite (with_proof_same d p Hget).
      repeat split; trivial; [lia| |intros j Hj; lia].
      intros [|fuel] Hfuel; [lia|]. cbn [proof_of_work]. now rewrite Hnow.
    + destruct (IH (dict_set "proof" (JInt (p + 1)) d) (p + 1)%Z)
        as (k & Hk & Hrun & Hfinal & Hbefore).
      * apply dict_get_set.
      * rewrite with_proof_again.
        now replace (p + 1 + Z.of_nat n)%Z with (p + Z.of_nat (S n))%Z by lia.
      * rewrite with_proof_again in Hfinal.
        replace (p + 1 + Z.of_nat k)%Z with (p + Z.of_nat (S k))%Z in * by lia.
        exists (S k). repeat split; trivial; [lia| |].
        -- intros [|fuel] Hfuel; [lia|]. cbn [proof_of_work].
           rewrite Hnow, (increment_with_proof d p Hget).
           unfold with_proof at 1. rewrite (Hrun fuel) by lia.
           now rewrite with_proof_again.
        -- intros [|j] Hj.
           ++ rewrite Z.add_0_r. now rewrite (with_proof_same d p Hget).
           ++ specialize (Hbefore j ltac:(lia)).
              rewrite with_proof_again in Hbefore.
              now replace (p + Z.of_nat (S j))%Z with (p + 1 + Z.of_nat j)%Z
                by lia.
Qed.

(** Every state the loop goes through is the block with its proof raised by
    some [j], and no earlier proof was valid. *)
Lemma pow_steps_states (b c : json) :
  pow_steps b c ->
  forall (d : dict json) (p : Z),
    b = JDict d ->
    dict_get "proof" d = Some (JInt p) ->
    exists j,
      c = with_proof d (p + Z.of_nat j)
      /\ (forall i, (i < j)%nat ->
            valid_proof (with_proof d (p + Z.of_nat i)) = false).
Proof.
  induction 1 as [b|b b' b'' [Hinvalid Hincr] _ IH]; intros d p -> Hget.
  - exists 0%nat. rewrite Z.add_0_r. split.
    + symmetry. now apply with_proof_same.
    + intros i Hi. lia.
  - rewrite (increment_with_proof d p Hget) in Hincr. injection Hincr as <-.
    destruct (IH (dict_set "proof" (JInt (p + 1)) d) (p + 1)%Z eq_refl
                (dict_get_set _ _ _)) as (j & -> & Hbefore).
    exists (S j). rewrite with_proof_again. split.
    + f_equal. lia.
    + intros [|i] Hi.
      * rewrite Z.add_0_r. now rewrite (with_proof_same d p Hget).
      * specialize (Hbefore i ltac:(lia)).
        rewrite with_proof_again in Hbefore.
        now replace (p + Z.of_nat (S i))%Z with (p + 1 + Z.of_nat i)%Z by lia.
Qed.

Lemma proof_of_with_proof (d : dict json) (z : Z) :
  proof_of (with_proof d z) = Some z.
Proof.
  unfold proof_of, with_proof. cbn [subscript]. now rewrite dict_get_set.
Qed.

(** C7: when some proof value from the block's current one upwards is
    valid, [proof_of_work] returns, given enough fuel, and leaves the block
    with a valid proof.  Every state of the search is the block with its
    proof raised by some [j], each iteration adds one to the proof, and the
    proof is never below its initial value. *)
Theorem proof_of_work_terminates (d : dict json) (p : Z) (n : nat) :
  dict_get "proof" d = Some (JInt p) ->
  valid_proof (with_proof d (p + Z.of_nat n)) = true ->
  exists k,
    (k <= n)%nat
    /\ (forall fuel, (k < fuel)%nat ->
          proof_of_work fuel (JDict d)
          = Some (with_proof d (p + Z.of_nat k), Ok tt))
    /\ valid_proof (with_proof d (p + Z.of_nat k)) = true
    /\ (forall c, pow_steps (JDict d) c ->
          exists j, (j <= k)%nat /\ c = with_proof d (p + Z.of_nat j))
    /\ (forall c c', pow_steps (JDict d) c -> pow_step c c' ->
          exists z, proof_of c = Some z /\ proof_of c' = Some (z + 1)%Z
                    /\ (p <= z)%Z).
Proof.
  intros Hget Hvalid.
  destruct (proof_of_work_first_valid n d p Hget Hvalid)
    as (k & Hk & Hrun & Hfinal & Hbefore).
  exists k. repeat split; trivial.
  - intros c Hc.
    destruct (pow_steps_states _ _ Hc d p eq_refl Hget) as (j & -> & Hj).
    exists j. split; [|reflexivity].
    destruct (Nat.le_gt_cases j k) as [Hle|Hgt]; [assumption|].
    rewrite (Hj k Hgt) in Hfinal. discriminate Hfinal.
  - intros c c' Hc [_ Hincr].
    destruct (pow_steps_states _ _ Hc d p eq_refl Hget) as (j & -> & _).
    unfold with_proof in Hincr.
    rewrite (increment_with_proof _ _ (dict_get_set _ _ _)) in Hincr.
    injection Hincr as <-. rewrite with_proof_again.
    exists (p + Z.of_nat j)%Z. rewrite !proof_of_with_proof.
    repeat split. lia.
Qed.

Lemma proof_of_work_terminates_witness :
  exists k,
    (k <= 3)%nat
    /\ proof_of_work (S k) (Sample.second 66507)
       = Some (Sample.second (66507 + Z.of_nat k), Ok tt).
Proof.
  destruct (proof_of_work_terminates
              [("index", JInt 2); ("timestamp", JFloat "1700000060.5");
               ("transactions", JList [Sample.reward]); ("proof", JInt 66507);
               ("previous_hash",
                JStr "a8d603754772c1ef5d054c356d34c4d8d5c27ca3147da09dae492e2882b804a6")]
              66507 3)
    as (k & Hk & Hrun & _).
  - reflexivity.
  - vm_compute. reflexivity.
  - exists k. split; [exact Hk|]. exact (Hrun (S k) (Nat.lt_succ_diag_r k)).
Defined.

(** ** Hasher *)

Lemma distinct_NoDup (l : list string) : distinct l = true -> NoDup l.
Proof.
  induction l as [|k l IH]; cbn [distinct]; intros H; constructor.
  - apply andb_prop in H as [H _]. intros Hin.
    apply negb_true_iff in H.
    assert (existsb (String.eqb k) l = true) as E; [|congruence].
    apply existsb_exists. exists k. split; [assumption|apply String.eqb_refl].
  - apply andb_prop in H as [_ H]. now apply IH.
Qed.

Module SortFacts.
Import Json.

Lemma key_leb_iff (a b : string) :
  key_leb a b = true <-> a = b \/ String_as_OT.lt a b.
Proof.
  unfold key_leb.
  destruct (String_as_OT.compare_spec a b) as [Heq|Hlt|Hgt]; split;
    intros H; trivial; try (now left); try (now right); try discriminate H.
  destruct H as [->|Hlt].
  - now apply (StrictOrder_Irreflexive b) in Hgt.
  - pose proof (StrictOrder_Transitive _ _ _ Hlt Hgt) as Habs.
    now apply (StrictOrder_Irreflexive a) in Habs.
Qed.

Lemma key_leb_total (a b : string) :
  key_leb a b = false -> key_leb b a = true.
Proof.
  unfold key_leb at 1.
  destruct (String_as_OT.compare_spec a b) as [Heq|Hlt|Hgt]; try discriminate.
  intros _. apply key_leb_iff. now right.
Qed.

Lemma key_leb_trans (a b c : string) :
  key_leb a b = true -> key_leb b c = true -> key_leb a c = true.
Proof.
  rewrite !key_leb_iff. intros [->|Hab] [->|Hbc]; auto.
  right. exact (StrictOrder_Transitive _ _ _ Hab Hbc).
Qed.

Lemma key_leb_antisym (a b : string) :
  key_leb a b = true -> key_leb b a = true -> a = b.
Proof.
  rewrite !key_leb_iff. intros [->|Hab] [Heq|Hba]; auto.
  pose proof (StrictOrder_Transitive _ _ _ Hab Hba) as Habs.
  now apply (StrictOrder_Irreflexive a) in Habs.
Qed.

Section Items.
Context {A : Type}.

Lemma insert_item_perm (x : string * A) (l : dict A) :
  Permutation (insert_item x l) (x :: l).
Proof.
  induction l as [|y l IH]; cbn [insert_item]; [reflexivity|].
  destruct (key_leb (fst x) (fst y)); [reflexivity|].
  rewrite IH. apply perm_swap.
Qed.

Lemma sort_items_perm (l : dict A) : Permutation (sort_items l) l.
Proof.
  induction l as [|x l IH]; [reflexivity|].
  cbn [sort_items fold_right]. rewrite insert_item_perm.
  now apply perm_skip.
Qed.

Lemma insert_item_sorted (x : string * A) (l : dict A) :
  StronglySorted item_le l -> StronglySorted item_le (insert_item x l).
Proof.
  induction 1 as [|y l Hsorted IH Hall]; cbn [insert_item].
  - repeat constructor.
  - destruct (key_leb (fst x) (fst y)) eqn:E.
    + constructor; [now constructor|]. constructor; [exact E|].
      eapply Forall_impl; [|exact Hall].
      intros z Hz. exact (key_leb_trans _ _ _ E Hz).
    + constructor; [exact IH|].
      apply (Permutation_Forall (x := x :: l)).
      * symmetry. apply insert_item_perm.
      * constructor; [now apply key_leb_total | exact Hall].
Qed.

Lemma sort_items_sorted (l : dict A) : StronglySorted item_le (sort_items l).
Proof.
  induction l as [|x l IH]; [constructor|].
  cbn [sort_items fold_right]. now apply insert_item_sorted.
Qed.

(** With distinct keys there is one sorted arrangement. *)
Lemma sorted_unique (l1 : dict A) :
  forall l2,
    StronglySorted item_le l1 -> StronglySorted item_le l2 ->
    NoDup (keys l1) -> Permutation l1 l2 -> l1 = l2.
Proof.
  induction l1 as [|x t1 IH]; intros l2 S1 S2 Hnd Hperm.
  - now apply Permutation_nil in Hperm.
  - destruct l2 as [|y t2];
      [symmetry in Hperm; now apply Permutation_nil in Hperm|].
    inversion S1 as [|? ? S1' F1]; subst.
    inversion S2 as [|? ? S2' F2]; subst.
    inversion Hnd as [|? ? Hnotin Hnd']; subst.
    assert (x = y) as ->.
    { assert (In x (y :: t2)) as [Hxy|Hxy]
        by (eapply Permutation_in; [exact Hperm|now left]);
        [now symmetry|].
      assert (In y (x :: t1)) as [Hyx|Hyx]
        by (eapply Permutation_in; [symmetry; exact Hperm|now left]);
        [assumption|].
      exfalso. apply Hnotin.
      rewrite Forall_forall in F1, F2.
      rewrite (key_leb_antisym _ _ (F1 _ Hyx) (F2 _ Hxy)).
      now apply in_map. }
    f_equal. apply IH; trivial. now apply Permutation_cons_inv in Hperm.
Qed.

Lemma sort_items_unique (l l' : dict A) :
  Permutation l l' -> NoDup (keys l) -> sort_items l = sort_items l'.
Proof.
  intros Hperm Hnd. apply sorted_unique.
  - apply sort_items_sorted.
  - apply sort_items_sorted.
  - eapply Permutation_NoDup; [|exact Hnd].
    apply Permutation_map. symmetry. apply sort_items_perm.
  - rewrite sort_items_perm, Hperm. symmetry. apply sort_items_perm.
Qed.
End Items.

End SortFacts.

Lemma json_equiv_refl (v : json) : json_equiv v v.
Proof.
  induction v as [|c|z|r|s|l IH|d IH] using json_nested_ind;
    try constructor.
  - induction IH; constructor; assumption.
  - apply equiv_dict with (m := d); [reflexivity|].
    induction IH; constructor; auto.
Qed.

Lemma json_equiv_list_inv (l : list json) (b : json) :
  json_equiv (JList l) b ->
  exists l', b = JList l' /\ Forall2 json_equiv l l'.
Proof. intros H. inversion H; subst. eauto. Qed.

Lemma json_equiv_dict_inv (d : dict json) (b : json) :
  json_equiv (JDict d) b ->
  exists m d',
    b = JDict d' /\ Permutation d m
    /\ Forall2 (fun x y => fst x = fst y /\ json_equiv (snd x) (snd y)) m d'.
Proof. intros H. inversion H; subst. eauto. Qed.

Lemma keys_render_values (d : dict json) : keys (render_values d) = keys d.
Proof. unfold keys, render_values. rewrite map_map. reflexivity. Qed.

(** [json.dumps(..., sort_keys = True)] gives the same text for the same
    logical value. *)
Lemma dumps_equiv (a : json) :
  json_wf a = true -> forall b, json_equiv a b -> Json.dumps a = Json.dumps b.
Proof.
  induction a as [|c|z|r|s|l IH|d IH] using json_nested_ind;
    intros Hwf b Heq.
  1-5: inversion Heq; reflexivity.
  - (* lists *)
    apply json_equiv_list_inv in Heq as (l' & -> & H2).
    cbn [Json.dumps]. do 3 f_equal.
    cbn [json_wf] in Hwf. rewrite forallb_forall in Hwf.
    rewrite Forall_forall in IH.
    induction H2 as [|x y l l' Hxy H2 IHl]; [reflexivity|].
    cbn [map]. f_equal.
    + apply IH; [now left | apply Hwf; now left | exact Hxy].
    + apply IHl.
      * intros z Hz. apply IH. now right.
      * intros z Hz. apply Hwf. now right.
  - (* dicts *)
    apply json_equiv_dict_inv in Heq as (m & d' & -> & Hperm & H2).
    cbn [Json.dumps]. fold (render_values d) (render_values d').
    do 4 f_equal.
    cbn [json_wf] in Hwf. apply andb_prop in Hwf as [Hkeys Hvals].
    rewrite forallb_forall in Hvals. rewrite Forall_forall in IH.
    assert (Hm : forall kv, In kv m ->
              forall b, json_equiv (snd kv) b ->
                        Json.dumps (snd kv) = Json.dumps b).
    { intros kv Hin.
      assert (In kv d) as Hd
        by (eapply Permutation_in; [symmetry; exact Hperm|exact Hin]).
      apply IH; [exact Hd | now apply Hvals]. }
    transitivity (Json.sort_items (render_values m)).
    + apply SortFacts.sort_items_unique.
      * now apply Permutation_map.
      * rewrite keys_render_values. now apply distinct_NoDup.
    + f_equal. clear Hperm.
      induction H2 as [|x y m' d'' [Hk Hv] H2 IHm]; [reflexivity|].
      cbn [render_values map]. f_equal.
      * rewrite Hk. f_equal. apply Hm; [now left|exact Hv].
      * apply IHm. intros kv Hin. apply Hm. now right.
Qed.

Lemma hex_digit_lower (n : N) : is_lower_hex (SHA256.hex_digit n) = true.
Proof.
  unfold SHA256.hex_digit.
  destruct (N.land n 15) as [|p]; [reflexivity|].
  do 4 (try destruct p as [p|p|]; try reflexivity).
Qed.

Lemma hex_word_lower (w : N) :
  forallb is_lower_hex (SHA256.hex_word w) = true.
Proof.
  unfold SHA256.hex_word. cbn [seq rev app map forallb].
  now rewrite !hex_digit_lower.
Qed.

Lemma hexdigest_shape (msg : string) :
  String.length (SHA256.hexdigest msg) = 64%nat
  /\ forallb is_lower_hex (list_ascii_of_string (SHA256.hexdigest msg)) = true.
Proof.
  unfold SHA256.hexdigest.
  destruct (SHA256.digest _) as [a b c d e f g h]. split.
  - reflexivity.
  - rewrite list_ascii_of_string_of_list_ascii.
    cbn [SHA256.regs_words map List.concat SHA256.ra SHA256.rb SHA256.rc
         SHA256.rd SHA256.re SHA256.rf SHA256.rg SHA256.rh].
    rewrite !forallb_app, !hex_word_lower. reflexivity.
Qed.

(** C9: two logically identical blocks, that is blocks with the same fields
    and values whatever the order in which the fields were inserted, have
    the same hash, a string of 64 lowercase hexadecimal digits. *)
Theorem hash_deterministic (a b : json) :
  json_wf a = true ->
  json_equiv a b ->
  hash a = hash b
  /\ String.length (hash a) = 64%nat
  /\ forallb is_lower_hex (list_ascii_of_string (hash a)) = true.
Proof.
  intros Hwf Heq. unfold hash.
  rewrite (dumps_equiv a Hwf b Heq). split; [reflexivity|].
  apply hexdigest_shape.
Qed.

Lemma hash_deterministic_witness :
  hash (Sample.second 66510) = hash second_reordered
  /\ String.length (hash (Sample.second 66510)) = 64%nat
  /\ forallb is_lower_hex (list_ascii_of_string (hash (Sample.second 66510)))
     = true.
Proof.
  apply hash_deterministic; [reflexivity|].
  unfold Sample.second, second_reordered.
  eapply equiv_dict; [apply Permutation_rev|]. cbn [rev app].
  repeat (constructor; [split; [reflexivity|try apply json_equiv_refl]|]);
    [|constructor].
  apply equiv_list. constructor; [|constructor].
  eapply equiv_dict; [apply Permutation_rev|]. cbn [rev app].
  repeat (constructor; [split; [reflexivity|apply json_equiv_refl]|]).
  constructor.
Defined.

(** ** Resolver *)

Lemma scan_app (fetch : network) (pre post : list string) :
  forall m nc,
    scan fetch (pre ++ post) m nc
    = (r <- scan fetch pre m nc ;; scan fetch post (fst r) (snd r)).
Proof.
  induction pre as [|node pre IH]; intros m nc; [reflexivity|].
  cbn [app scan]. destruct (fetch node) as [e|s len c]; [reflexivity|].
  destruct (s =? 200)%Z; [|apply IH].
  destruct (len >? m)%Z; [|apply IH].
  destruct (valid_chain c) as [[|]| |]; cbn [bind]; trivial.
Qed.


(** What a scan that completes has done, whatever the peers are: every
    peer answered; a chain sent with status 200 and a length above the final
    maximum was walked and refused; and the scan either recorded nothing or
    ended on the winner. *)
Lemma scan_completed (fetch : network) (neighbors : list string) :
  forall m nc m' nc',
    scan fetch neighbors m nc = Ok (m', nc') ->
    (m <= m')%Z
    /\ (forall n, In n neighbors ->
          exists status_code len c,
            fetch n = Response status_code len c
            /\ (status_code = 200%Z -> (m' < len)%Z ->
                valid_chain c = Ok false))
    /\ (((forall n, In n neighbors -> ~ eligible fetch m n)
         /\ m' = m /\ nc' = nc)
        \/ (exists w len c,
              winner fetch neighbors w len c /\ (m < len)%Z
              /\ m' = len /\ nc' = Some c)).
Proof.
  induction neighbors as [|node rest IH]; intros m nc m' nc'; cbn [scan].
  - intros H. injection H as <- <-. split; [lia|].
    split; [intros n []|]. left. split; [intros n []|now split].
  - destruct (fetch node) as [e|s len c] eqn:Hfetch; [discriminate|].
    assert (Hskip :
      ~ eligible fetch m node ->
      (s = 200%Z -> (m < len)%Z -> valid_chain c = Ok false) ->
      scan fetch rest m nc = Ok (m', nc') ->
      (m <= m')%Z
      /\ (forall n, In n (node :: rest) ->
            exists status_code len c,
              fetch n = Response status_code len c
              /\ (status_code = 200%Z -> (m' < len)%Z ->
                  valid_chain c = Ok false))
      /\ (((forall n, In n (node :: rest) -> ~ eligible fetch m n)
           /\ m' = m /\ nc' = nc)
          \/ (exists w len c,
                winner fetch (node :: rest) w len c /\ (m < len)%Z
                /\ m' = len /\ nc' = Some c))).
    { intros Hnot Hrefused Hscan.
      destruct (IH m nc m' nc' Hscan) as (Hle & Hpeers & Hend).
      split; [exact Hle|]. split.
      - intros n [<-|Hin]; [|now apply Hpeers].
        exists s, len, c. split; [exact Hfetch|].
        intros Hs Hlt. apply Hrefused; [exact Hs|lia].
      - destruct Hend as [(Hnone & -> & ->)|(w & lw & cw & Hwin & Hlt & -> & ->)].
        + left. split; [|now split].
          intros n [<-|Hin]; [exact Hnot|now apply Hnone].
        + right. exists w, lw, cw. repeat split; trivial.
          destruct Hwin as (pre & post & -> & Hw & Hv & Hpre & Hpost).
          exists (node :: pre), post. repeat split; trivial.
          intros n len' c' [<-|Hin] Hn Hvalid; [|now apply (Hpre n len' c')].
          destruct (Z.lt_ge_cases len' lw) as [|Hge]; [assumption|].
          elim Hnot. exists len', c'. repeat split; trivial. lia. }
    destruct (Z.eqb_spec s 200) as [->|Hs];
      [|apply Hskip; [|intros E; now elim Hs];
        intros (l' & c' & E & _); rewrite Hfetch in E; congruence].
    destruct (Z.gtb_spec len m) as [Hgt|Hle];
      [|apply Hskip; [|intros _ Hlt; lia];
        intros (l' & c' & E & Hlt & _); rewrite Hfetch in E;
        injection E as <- <-; lia].
    destruct (valid_chain c) as [[|]| |] eqn:Hok; cbn [bind];
      try discriminate;
      [|apply Hskip; [|reflexivity];
        intros (l' & c' & E & _ & Hv); rewrite Hfetch in E;
        injection E as <- <-; congruence].
    intros Hscan.
    destruct (IH len (Some c) m' nc' Hscan) as (Hle & Hpeers & Hend).
    split; [lia|]. split.
    + intros n [<-|Hin]; [|now apply Hpeers].
      exists 200%Z, len, c. split; [exact Hfetch|]. intros _ Hlt. lia.
    + right.
      destruct Hend as [(Hnone & -> & ->)|(w & lw & cw & Hwin & Hlt & -> & ->)].
      * exists node, len, c. repeat split; trivial.
        exists [], rest. repeat split; trivial; [intros n len' c' []|].
        intros n len' c' Hin Hn Hvalid.
        destruct (Z.le_gt_cases len' len) as [|Hlt]; [assumption|].
        elim (Hnone n Hin). exists len', c'. repeat split; trivial.
      * exists w, lw, cw. repeat split; trivial; [|lia].
        destruct Hwin as (pre & post & -> & Hw & Hv & Hpre & Hpost).
        exists (node :: pre), post. repeat split; trivial.
        intros n len' c' [<-|Hin] Hn Hvalid; [|now apply (Hpre n len' c')].
        rewrite Hfetch in Hn. injection Hn as <- <-. exact Hlt.
Qed.

(** C2, as amended: in every run whose scan completes, that is in which no
    fetch raises and [valid_chain] raises on no chain it is given, if some
    scanned peer reports a length above the local one with a chain that
    passes [valid_chain] then [resolve_conflict] replaces the local chain
    with the chain of the winning peer, keeps the pending pool (and the peer
    set) and returns true; when no peer is such a candidate it returns false
    and changes nothing. *)
Theorem resolve_conflict_replaces (fetch : network) (self : Blockchain)
    (m : Z) (nc : option (list json)) :
  scan fetch (nodes self) (local_length self) None = Ok (m, nc) ->
  ((exists n, In n (nodes self) /\ eligible fetch (local_length self) n) ->
   exists w len c,
     winner fetch (nodes self) w len c
     /\ (local_length self < len)%Z
     /\ resolve_conflict fetch self
        = ({| chain := c;
              pending_transactions := pending_transactions self;
              nodes := nodes self |}, Ok true))
  /\ ((forall n, In n (nodes self) -> ~ eligible fetch (local_length self) n) ->
      resolve_conflict fetch self = (self, Ok false)).
Proof.
  intros Hscan. unfold resolve_conflict. fold (local_length self).
  rewrite Hscan.
  destruct (scan_completed fetch (nodes self) _ None m nc Hscan)
    as (_ & _ & [(Hnone & -> & ->)|(w & len & c & Hwin & Hlt & -> & ->)]);
    split.
  - intros (n & Hin & Hn). now elim (Hnone n Hin).
  - reflexivity.
  - intros _. exists w, len, c. repeat split; trivial.
    destruct Hwin as (_ & _ & _ & _ & Hvalid & _).
    destruct c; [discriminate Hvalid|reflexivity].
  - intros Hnone. destruct Hwin as (pre & post & Hnodes & Hw & Hvalid & _).
    elim (Hnone w).
    + rewrite Hnodes. apply in_or_app. right. now left.
    + exists len, c. repeat split; trivial.
Qed.



(** C4, as amended: a peer whose response has a status other than 200 is
    skipped, wherever it stands in the scan, and the scan goes on with the
    other peers.  A fetch that raises is not caught: the scan stops there
    and [resolve_conflict] raises, leaving the ledger as it was. *)
Theorem scan_peer_failure (fetch : network) (node : string)
    (pre post : list string) (m : Z) (nc : option (list json)) :
  (forall status_code len c,
     fetch node = Response status_code len c -> status_code <> 200%Z ->
     scan fetch (pre ++ node :: post) m nc = scan fetch (pre ++ post) m nc)
  /\ (forall e,
        fetch node = FetchRaises e ->
        scan fetch (node :: post) m nc = Raise e
        /\ forall self,
             nodes self = node :: post ->
             resolve_conflict fetch self = (self, Raise e)).
Proof.
  split.
  - intros s len c Hfetch Hs. rewrite !scan_app.
    destruct (scan fetch pre m nc) as [[m' nc']| |]; cbn [bind]; trivial.
    cbn [scan fst snd]. rewrite Hfetch.
    now destruct (Z.eqb_spec s 200).
  - intros e Hfetch. split.
    + cbn [scan]. now rewrite Hfetch.
    + intros self Hnodes. unfold resolve_conflict. rewrite Hnodes.
      cbn [scan]. now rewrite Hfetch.
Qed.

Lemma resolve_conflict_replaces_witness :
  exists w len c,
    winner net_longer (nodes local_node) w len c
    /\ (local_length local_node < len)%Z
    /\ resolve_conflict net_longer local_node
       = ({| chain := c;
             pending_transactions := pending_transactions local_node;
             nodes := nodes local_node |}, Ok true).
Proof.
  refine (proj1 (resolve_conflict_replaces net_longer local_node 3
                   (Some Sample.chain3) _) _).
  - vm_compute. reflexivity.
  - exists "peer2". split; [right; now left|].
    exists 3%Z, Sample.chain3.
    split; [reflexivity|split; [reflexivity|vm_compute; reflexivity]].
Defined.

(** C2 as stated fails: with peer1 scanned and holding a longer valid chain,
    and peer2 out of reach, the resolution raises; nothing is replaced and
    nothing is returned. *)
Lemma eligible_peer_lost :
  eligible net_cut (local_length local_node) "peer1"
  /\ resolve_conflict net_cut local_node = (local_node, Raise ConnectionError)
  /\ ~ (forall (fetch : network) (self : Blockchain),
          (exists n, In n (nodes self)
                     /\ eligible fetch (local_length self) n) ->
          exists c,
            resolve_conflict fetch self
            = ({| chain := c;
                  pending_transactions := pending_transactions self;
                  nodes := nodes self |}, Ok true)).
Proof.
  assert (He : eligible net_cut (local_length local_node) "peer1").
  { exists 3%Z, Sample.chain3.
    split; [reflexivity|split; [reflexivity|vm_compute; reflexivity]]. }
  assert (Hr : resolve_conflict net_cut local_node
               = (local_node, Raise ConnectionError))
    by (vm_compute; reflexivity).
  split; [exact He|]. split; [exact Hr|].
  intros H. destruct (H net_cut local_node) as [c Hc].
  - exists "peer1". split; [now left|exact He].
  - rewrite Hr in Hc. discriminate Hc.
Qed.


Example resolve_longer :
  resolve_conflict net_longer local_node
  = ({| chain := Sample.chain3;
        pending_transactions := [Sample.reward];
        nodes := ["peer1"; "peer2"] |}, Ok true).
Proof. vm_compute. reflexivity. Qed.


Lemma scan_peer_failure_witness :
  scan net_busy (["peer1"; "peer2"]) 1 None = scan net_busy ["peer2"] 1 None.
Proof.
  refine (proj1 (scan_peer_failure net_busy "peer1" [] ["peer2"] 1 None)
            503%Z 0%Z [] _ _).
  - reflexivity.
  - intros H. discriminate H.
Defined.

(** C4 as stated fails: an unreachable peer is not skipped.  With peer1 down
    the resolution raises although peer2, scanned alone, would have made the
    node adopt its chain. *)
Lemma unreachable_peer_aborts :
  resolve_conflict net_down local_node = (local_node, Raise ConnectionError)
  /\ resolve_conflict net_down
       {| chain := chain local_node;
          pending_transactions := pending_transactions local_node;
          nodes := ["peer2"] |}
     = ({| chain := Sample.chain3;
           pending_transactions := pending_transactions local_node;
           nodes := ["peer2"] |}, Ok true)
  /\ ~ (forall (fetch : network) node rest m nc e,
          fetch node = FetchRaises e ->
          scan fetch (node :: rest) m nc = scan fetch rest m nc).
Proof.
  split; [reflexivity|]. split; [vm_compute; reflexivity|].
  intros H.
  specialize (H net_down "peer1" [] 1%Z None ConnectionError eq_refl).
  discriminate H.
Qed.

(** * Further properties of the code *)

(** ** Validator: what acceptance means, and how it fails *)

Lemma valid_chain_from_true (blocks : list json) :
  forall last_block,
    valid_chain_from last_block blocks = Ok true
    <-> linked (last_block :: blocks).
Proof.
  induction blocks as [|b t IH]; intros last_block.
  - split; [|reflexivity]. intros _ i prev blk _ H. destruct i; discriminate H.
  - cbn [valid_chain_from]. split.
    + destruct (subscript "previous_hash" b) as [ph| |] eqn:Hph; cbn [bind];
        try discriminate.
      destruct (py_ne_str ph (hash last_block)) eqn:Hne; [discriminate|].
      destruct (valid_proof b) eqn:Hvp; cbn [negb]; [|discriminate].
      intros Hrest. apply IH in Hrest. apply py_ne_str_false in Hne. subst ph.
      intros [|i] prev blk H1 H2.
      * cbn in H1, H2. injection H1 as <-. injection H2 as <-. now split.
      * exact (Hrest i prev blk H1 H2).
    + intros Hlinked.
      destruct (Hlinked 0%nat last_block b eq_refl eq_refl) as [Hph Hvp].
      rewrite Hph, Hvp. cbn [bind py_ne_str negb].
      rewrite String.eqb_refl. cbn [negb]. apply IH.
      intros i prev blk H1 H2. exact (Hlinked (S i) prev blk H1 H2).
Qed.

(** X1: [valid_chain] returns true exactly on the non-empty chains in which
    every block after the first carries, as a string, the hash of the block
    before it and has a valid proof; nothing is assumed on the shape of the
    blocks. *)
Theorem valid_chain_true_iff (chain : list json) :
  valid_chain chain = Ok true <-> chain <> [] /\ linked chain.
Proof.
  destruct chain as [|first blocks]; cbn [valid_chain].
  - split; [discriminate|]. intros [H _]. now elim H.
  - rewrite valid_chain_from_true. split; [|now intros [_ H]].
    intros H. split; [discriminate|exact H].
Qed.

Lemma valid_chain_from_app_true (pre rest : list json) (first : json) :
  valid_chain_from first (pre ++ rest) = Ok true ->
  valid_chain_from first pre = Ok true
  /\ valid_chain_from (last pre first) rest = Ok true.
Proof.
  rewrite valid_chain_from_app.
  destruct (valid_chain_from first pre) as [[|]| |]; cbn [bind];
    try discriminate.
  now split.
Qed.

(** X2: validation has no anchor.  Every non-empty contiguous piece of a
    chain that [valid_chain] accepts, an initial piece or a piece without the
    first blocks, is accepted as well. *)
Theorem valid_chain_piece (pre piece post : list json) :
  valid_chain (pre ++ piece ++ post) = Ok true ->
  piece <> [] ->
  valid_chain piece = Ok true.
Proof.
  intros Hvalid Hpiece.
  destruct piece as [|x piece]; [now elim Hpiece|]. clear Hpiece.
  cbn [valid_chain].
  assert (Hx : valid_chain_from x (piece ++ post) = Ok true).
  { destruct pre as [|first pre]; cbn [app valid_chain] in Hvalid;
      [exact Hvalid|].
    apply valid_chain_from_app_true in Hvalid as [_ Hvalid].
    cbn [valid_chain_from] in Hvalid.
    destruct (subscript "previous_hash" x) as [ph| |]; cbn [bind] in Hvalid;
      try discriminate.
    destruct (py_ne_str ph _); [discriminate|].
    destruct (valid_proof x); cbn [negb] in Hvalid;
      [exact Hvalid|discriminate]. }
  now apply valid_chain_from_app_true in Hx as [Hx _].
Qed.

Lemma valid_chain_piece_witness :
  valid_chain [Sample.second 66510; Sample.third] = Ok true.
Proof.
  apply (valid_chain_piece [Sample.genesis]
           [Sample.second 66510; Sample.third] []).
  - vm_compute. reflexivity.
  - discriminate.
Defined.

(** X3: after blocks that pass, a block from which [previous_hash] cannot be
    read makes [valid_chain] raise, whatever comes after it: [KeyError] for
    a dict without that key, [TypeError] for a value that is not a dict. *)
Theorem valid_chain_raises (first : json) (blocks later : list json)
    (block : json) :
  valid_chain (first :: blocks) = Ok true ->
  (forall d, block = JDict d -> dict_get "previous_hash" d = None ->
     valid_chain (first :: blocks ++ block :: later) = Raise KeyError)
  /\ ((forall d, block <> JDict d) ->
      valid_chain (first :: blocks ++ block :: later) = Raise TypeError).
Proof.
  intros Hvalid. cbn [valid_chain] in *.
  rewrite valid_chain_from_app, Hvalid. cbn [bind valid_chain_from]. split.
  - intros d -> Hget. cbn [subscript]. now rewrite Hget.
  - intros Hnot. destruct block; try reflexivity. now elim (Hnot entries).
Qed.

Lemma valid_chain_raises_witness :
  valid_chain ([Sample.genesis; Sample.second 66510]
                 ++ JDict [("index", JInt 3)] :: [Sample.third])
  = Raise KeyError
  /\ valid_chain ([Sample.genesis; Sample.second 66510]
                    ++ JStr "block" :: [Sample.third])
     = Raise TypeError.
Proof.
  assert (H : valid_chain [Sample.genesis; Sample.second 66510] = Ok true)
    by (vm_compute; reflexivity).
  split.
  - apply (proj1 (valid_chain_raises Sample.genesis [Sample.second 66510]
                    [Sample.third] (JDict [("index", JInt 3)]) H)
             [("index", JInt 3)]); reflexivity.
  - apply (proj2 (valid_chain_raises Sample.genesis [Sample.second 66510]
                    [Sample.third] (JStr "block") H)).
    intros d Hd. discriminate Hd.
Defined.

(** ** Miner: what the search touches, and how it fails *)

Lemma dict_get_set_other {A : Type} (k k' : string) (v : A) (d : dict A) :
  k <> k' -> dict_get k (dict_set k' v d) = dict_get k d.
Proof.
  intros Hne. induction d as [|[k0 v0] d IH]; cbn [dict_set dict_get].
  - destruct (String.eqb_spec k k'); [contradiction|reflexivity].
  - destruct (String.eqb_spec k' k0) as [->|Hk0]; cbn [dict_get].
    + destruct (String.eqb_spec k k0); [contradiction|reflexivity].
    + now rewrite IH.
Qed.

Lemma keys_dict_set {A : Type} (k : string) (v w : A) (d : dict A) :
  dict_get k d = Some w -> keys (dict_set k v d) = keys d.
Proof.
  induction d as [|[k0 v0] d IH]; cbn [dict_set dict_get]; [discriminate|].
  destruct (String.eqb_spec k k0) as [->|Hne]; intros H; [reflexivity|].
  cbn [keys map fst] in *. f_equal. now apply IH.
Qed.

Lemma increment_proof_inv (b b' : json) :
  increment_proof b = Ok b' ->
  exists d p q,
    b = JDict d /\ dict_get "proof" d = Some p
    /\ py_add1 p = Ok q /\ b' = JDict (dict_set "proof" q d).
Proof.
  unfold increment_proof. destruct b; cbn [subscript bind]; try discriminate.
  destruct (dict_get "proof" entries) as [p|] eqn:Hget; cbn [bind];
    [|discriminate].
  destruct (py_add1 p) as [q| |] eqn:Hadd; cbn [bind set_item];
    try discriminate.
  intros H. injection H as <-. now exists entries, p, q.
Qed.

Lemma proof_of_work_sound (fuel : nat) :
  forall b b', proof_of_work fuel b = Some (b', Ok tt) -> valid_proof b' = true.
Proof.
  induction fuel as [|fuel IH]; intros b b'; cbn [proof_of_work];
    [discriminate|].
  destruct (valid_proof b) eqn:Hvp.
  - intros H. now injection H as <-.
  - destruct (increment_proof b) as [b1| |]; [apply IH| |]; discriminate.
Qed.

Lemma proof_of_work_writes_proof_only (fuel : nat) :
  forall (b b' : json) (r : result unit),
    proof_of_work fuel b = Some (b', r) ->
    (forall k, k <> "proof" -> subscript k b' = subscript k b)
    /\ (forall d, b = JDict d -> exists d', b' = JDict d' /\ keys d' = keys d)
    /\ ((forall d, b <> JDict d) -> b' = b).
Proof.
  induction fuel as [|fuel IH]; intros b b' r; cbn [proof_of_work];
    [discriminate|].
  assert (Hsame : Some (b, r) = Some (b', r) ->
                  (forall k, k <> "proof" -> subscript k b' = subscript k b)
                  /\ (forall d, b = JDict d ->
                        exists d', b' = JDict d' /\ keys d' = keys d)
                  /\ ((forall d, b <> JDict d) -> b' = b)).
  { intros H. injection H as <-. repeat split; trivial.
    intros d ->. now exists d. }
  destruct (valid_proof b).
  - intros H. injection H as <- <-. now apply Hsame.
  - destruct (increment_proof b) as [b1| |] eqn:Hincr.
    + intros Hrun. apply IH in Hrun as (Hother & Hkeys & _).
      apply increment_proof_inv in Hincr as (d & p & q & -> & Hget & _ & ->).
      repeat split.
      * intros k Hk. rewrite (Hother k Hk). cbn [subscript].
        now rewrite dict_get_set_other.
      * intros d0 H0. injection H0 as <-.
        destruct (Hkeys _ eq_refl) as (d' & -> & Hd').
        exists d'. split; [reflexivity|].
        rewrite Hd'. exact (keys_dict_set _ _ _ _ Hget).
      * intros Hnot. now elim (Hnot d).
    + intros H. injection H as <- <-. now apply Hsame.
    + intros H. injection H as <- <-. now apply Hsame.
Qed.

(** X4: the search only writes the [proof] entry.  Whatever the outcome,
    every other entry of the block reads as before, and the block keeps its
    keys in their order. *)
Theorem proof_of_work_frame (fuel : nat) (b b' : json) (r : result unit) :
  proof_of_work fuel b = Some (b', r) ->
  (forall k, k <> "proof" -> subscript k b' = subscript k b)
  /\ (forall d, b = JDict d -> exists d', b' = JDict d' /\ keys d' = keys d)
  /\ ((forall d, b <> JDict d) -> b' = b).
Proof. apply proof_of_work_writes_proof_only. Qed.

Lemma proof_of_work_frame_witness :
  subscript "transactions" (Sample.second 66510)
  = subscript "transactions" (Sample.second 66507).
Proof.
  refine (proj1 (proof_of_work_frame 4 (Sample.second 66507)
                   (Sample.second 66510) (Ok tt) _) "transactions" _).
  - vm_compute. reflexivity.
  - discriminate.
Defined.

(** X5: on a block whose proof is not valid the search raises as soon as the
    proof cannot be incremented, and leaves the block as it found it:
    [KeyError] when the dict has no [proof] entry, [TypeError] when the block
    is not a dict or its proof is [None], a string, a list or a dict. *)
Theorem proof_of_work_raises (fuel : nat) (block : json) :
  valid_proof block = false ->
  (forall d, block = JDict d -> dict_get "proof" d = None ->
     proof_of_work (S fuel) block = Some (block, Raise KeyError))
  /\ ((forall d, block <> JDict d) ->
      proof_of_work (S fuel) block = Some (block, Raise TypeError))
  /\ (forall d p, block = JDict d -> dict_get "proof" d = Some p ->
        (forall z, p <> JInt z) -> (forall c, p <> JBool c) ->
        (forall t, p <> JFloat t) ->
        proof_of_work (S fuel) block = Some (block, Raise TypeError)).
Proof.
  intros Hvp. cbn [proof_of_work]. rewrite Hvp. unfold increment_proof.
  repeat split.
  - intros d -> Hget. cbn [subscript]. now rewrite Hget.
  - intros Hnot. destruct block; try reflexivity. now elim (Hnot entries).
  - intros d p -> Hget Hint Hbool Hfloat. cbn [subscript]. rewrite Hget.
    cbn [bind]. destruct p; try reflexivity.
    + now elim (Hbool b).
    + now elim (Hint z).
    + now elim (Hfloat repr).
Qed.

Lemma proof_of_work_raises_witness :
  proof_of_work 5 (JDict [("index", JInt 2)])
  = Some (JDict [("index", JInt 2)], Raise KeyError).
Proof.
  refine (proj1 (proof_of_work_raises 4 (JDict [("index", JInt 2)]) _)
            [("index", JInt 2)] eq_refl eq_refl).
  vm_compute. reflexivity.
Defined.

(** ** Ledger: raising, invariants and the promise of new_transaction *)

Lemma py_last_snoc {A : Type} (l : list A) (x : A) : py_last (l ++ [x]) = Ok x.
Proof. unfold py_last. now rewrite rev_unit. Qed.

Lemma py_last_cons {A : Type} (first : A) (l : list A) :
  py_last (first :: l) = Ok (last l first).
Proof.
  destruct (exists_last (l := first :: l)) as (l' & x & E); [discriminate|].
  rewrite E, py_last_snoc. f_equal.
  rewrite <- (last_cons first first l), E. symmetry. apply last_last.
Qed.

Lemma new_block_returns (now : string) (proof : json)
    (previous_hash : option string) (self : Blockchain) (ph : string) :
  previous_hash_or previous_hash self = Ok ph ->
  new_block now proof previous_hash self
  = ({| chain :=
          chain self
            ++ [JDict [("index", JInt (Z.of_nat (List.length (chain self)) + 1));
                       ("timestamp", JFloat now);
                       ("transactions", JList (pending_transactions self));
                       ("proof", proof);
                       ("previous_hash", JStr ph)]];
        pending_transactions := [];
        nodes := nodes self |},
     Ok (JDict [("index", JInt (Z.of_nat (List.length (chain self)) + 1));
                ("timestamp", JFloat now);
                ("transactions", JList (pending_transactions self));
                ("proof", proof);
                ("previous_hash", JStr ph)])).
Proof. intros H. unfold new_block. now rewrite H. Qed.

Lemma previous_hash_or_cases (previous_hash : option string)
    (self : Blockchain) :
  (chain self = [] /\ (previous_hash = None \/ previous_hash = Some "")
   /\ previous_hash_or previous_hash self = Raise IndexError)
  \/ (exists ph, previous_hash_or previous_hash self = Ok ph
        /\ ((exists s, previous_hash = Some s /\ s <> "" /\ ph = s)
            \/ ((previous_hash = None \/ previous_hash = Some "")
                /\ exists first blocks,
                     chain self = first :: blocks
                     /\ ph = hash (last blocks first)))).
Proof.
  unfold previous_hash_or, last_block.
  destruct previous_hash as [s|].
  - destruct (String.eqb_spec s "") as [->|Hs].
    + destruct (chain self) as [|first blocks] eqn:E.
      * left. repeat split; auto.
      * right. rewrite py_last_cons. cbn [bind]. eexists. split; [reflexivity|].
        right. split; [now right|]. now exists first, blocks.
    + right. exists s. split; [reflexivity|]. left. now exists s.
  - destruct (chain self) as [|first blocks] eqn:E.
    + left. repeat split; auto.
    + right. rewrite py_last_cons. cbn [bind]. eexists. split; [reflexivity|].
      right. split; [now left|]. now exists first, blocks.
Qed.

Lemma well_indexed_snoc (chain : list json) (b : json) :
  well_indexed chain ->
  subscript "index" b = Ok (JInt (Z.of_nat (List.length chain) + 1)) ->
  well_indexed (chain ++ [b]).
Proof.
  intros Hwi Hb i x Hx.
  destruct (Nat.lt_ge_cases i (List.length chain)) as [Hlt|Hge].
  - rewrite nth_error_app1 in Hx by assumption. now apply Hwi.
  - rewrite nth_error_app2 in Hx by assumption.
    destruct (i - List.length chain)%nat as [|j] eqn:E; cbn in Hx.
    + injection Hx as <-. rewrite Hb. do 3 f_equal. lia.
    + destruct j; discriminate Hx.
Qed.

Lemma nth_error_last {A : Type} (first : A) (l : list A) :
  nth_error (first :: l) (List.length l) = Some (last l first).
Proof.
  revert first. induction l as [|x l IH]; intros first; [reflexivity|].
  cbn [List.length nth_error]. rewrite IH. f_equal.
  symmetry. apply last_cons.
Qed.

Lemma well_indexed_last (first : json) (blocks : list json) :
  well_indexed (first :: blocks) ->
  subscript "index" (last blocks first)
  = Ok (JInt (Z.of_nat (List.length (first :: blocks)))).
Proof.
  intros Hwi. rewrite (Hwi _ _ (nth_error_last first blocks)).
  do 2 f_equal. cbn [List.length]. lia.
Qed.

Lemma new_transaction_indexed (sender recipient amount : json)
    (self : Blockchain) :
  chain self <> [] ->
  well_indexed (chain self) ->
  snd (new_transaction sender recipient amount self)
  = Ok (JInt (Z.of_nat (List.length (chain self)) + 1)).
Proof.
  intros Hne Hwi. unfold new_transaction, last_block. cbn [snd chain].
  destruct (chain self) as [|first blocks] eqn:E; [now elim Hne|].
  rewrite py_last_cons. cbn [bind].
  rewrite (well_indexed_last first blocks Hwi). reflexivity.
Qed.

Lemma proof_of_work_int (fuel : nat) :
  forall (d : dict json) (p : Z) (b' : json) (r : result unit),
    dict_get "proof" d = Some (JInt p) ->
    proof_of_work fuel (JDict d) = Some (b', r) ->
    r = Ok tt /\ exists k, b' = with_proof d (p + Z.of_nat k).
Proof.
  induction fuel as [|fuel IH]; intros d p b' r Hget; cbn [proof_of_work];
    [discriminate|].
  destruct (valid_proof (JDict d)).
  - intros H. injection H as <- <-. split; [reflexivity|].
    exists 0%nat. rewrite Z.add_0_r. symmetry. now apply with_proof_same.
  - rewrite (increment_with_proof d p Hget). unfold with_proof at 1.
    intros Hrun.
    apply (IH _ (p + 1)%Z) in Hrun as (-> & k & ->);
      [|apply dict_get_set].
    split; [reflexivity|]. exists (S k). rewrite with_proof_again.
    f_equal. lia.
Qed.

Lemma subscript_with_proof (d : dict json) (z : Z) (k : string) :
  k <> "proof" -> subscript k (with_proof d z) = subscript k (JDict d).
Proof.
  intros Hk. unfold with_proof. cbn [subscript].
  now rewrite dict_get_set_other.
Qed.

Lemma well_indexed_replace_last (chain : list json) (b b' : json) :
  well_indexed (chain ++ [b]) ->
  subscript "index" b' = subscript "index" b ->
  well_indexed (chain ++ [b']).
Proof.
  intros Hwi Hb i x Hx.
  destruct (Nat.lt_ge_cases i (List.length chain)) as [Hlt|Hge].
  - rewrite nth_error_app1 in Hx by assumption.
    apply Hwi. now rewrite nth_error_app1.
  - rewrite nth_error_app2 in Hx by assumption.
    destruct (i - List.length chain)%nat as [|j] eqn:E; cbn in Hx.
    + injection Hx as <-. rewrite Hb. apply Hwi.
      rewrite nth_error_app2 by assumption. now rewrite E.
    + destruct j; discriminate Hx.
Qed.

Lemma ledger_state_inv (self : Blockchain) :
  ledger_state self -> chain self <> [] /\ well_indexed (chain self).
Proof.
  induction 1 as [now|s r a self _ [Hne Hwi]|now proof ph self _ [Hne Hwi]
                 |fuel block' r self _ [Hne Hwi] Hrun].
  - split; [discriminate|]. intros [|[|i]] b Hb; cbn in Hb; try discriminate.
    now injection Hb as <-.
  - now split.
  - destruct (previous_hash_or_cases ph self)
      as [(Hempty & _)|(h & Hok & _)]; [contradiction|].
    rewrite (new_block_returns _ _ _ _ _ Hok). cbn [fst chain]. split.
    + now destruct (chain self).
    + now apply well_indexed_snoc.
  - cbn [chain]. split; [now destruct (removelast (chain self))|].
    unfold last_block in Hrun.
    destruct (exists_last Hne) as (l & b & E). rewrite E in *.
    rewrite py_last_snoc in Hrun. cbn [bind] in Hrun.
    injection Hrun as Hrun. rewrite removelast_last.
    apply (well_indexed_replace_last l b block' Hwi).
    now apply (proj1 (proof_of_work_writes_proof_only _ _ _ _ Hrun)).
Qed.

(** X7: on every ledger that the methods of the class build from a fresh
    one, mining included and with any proofs and previous hashes given to
    [new_block], the chain is not empty and the block at position [i] (from
    0) carries the index [i + 1]; hence [new_transaction] does not raise
    there and returns the length of the chain plus one. *)
Theorem ledger_indexed (self : Blockchain) :
  ledger_state self ->
  chain self <> []
  /\ well_indexed (chain self)
  /\ (forall sender recipient amount,
        snd (new_transaction sender recipient amount self)
        = Ok (JInt (Z.of_nat (List.length (chain self)) + 1))).
Proof.
  intros H. destruct (ledger_state_inv self H) as [Hne Hwi].
  repeat split; trivial. intros. now apply new_transaction_indexed.
Qed.

Lemma ledger_indexed_witness :
  snd (new_transaction (JStr "a") (JStr "b") (JInt 5)
         (fst (new_block "1700000060.5" (JInt 7) (Some "xyz")
                 (fst (init "1700000000.25")))))
  = Ok (JInt 3).
Proof.
  refine (proj2 (proj2 (ledger_indexed _ _)) (JStr "a") (JStr "b") (JInt 5)).
  apply ledger_block. apply ledger_init.
Defined.

(** X8: the promise in the docstring of [new_transaction] holds on those
    ledgers: the index it returns is the index of the block that the next
    [new_block] creates, and that block ends with the transaction. *)
Theorem new_transaction_promise (sender recipient amount : json)
    (now : string) (proof : json) (previous_hash : option string)
    (self : Blockchain) :
  ledger_state self ->
  exists index self1 self2 block,
    new_transaction sender recipient amount self = (self1, Ok (JInt index))
    /\ new_block now proof previous_hash self1 = (self2, Ok block)
    /\ subscript "index" block = Ok (JInt index)
    /\ subscript "transactions" block
       = Ok (JList (pending_transactions self
                      ++ [transfer sender recipient amount])).
Proof.
  intros H. destruct (ledger_state_inv self H) as [Hne Hwi].
  pose proof (new_transaction_indexed sender recipient amount self Hne Hwi)
    as Hret.
  destruct (new_transaction sender recipient amount self) as [self1 r] eqn:E.
  cbn [snd] in Hret. subst r.
  assert (Hchain : chain self1 = chain self)
    by (unfold new_transaction in E; now injection E as <-).
  assert (Hpool : pending_transactions self1
                  = pending_transactions self
                      ++ [transfer sender recipient amount])
    by (unfold new_transaction in E; now injection E as <-).
  destruct (previous_hash_or_cases previous_hash self1)
    as [(Hempty & _)|(h & Hok & _)]; [congruence|].
  eexists _, self1, _, _. split; [reflexivity|].
  rewrite (new_block_returns _ _ _ _ _ Hok). split; [reflexivity|].
  rewrite Hchain, Hpool. split; reflexivity.
Qed.

Lemma new_transaction_promise_witness :
  exists index self1 self2 block,
    new_transaction (JStr "a") (JStr "b") (JInt 5) (fst (init "1700000000.25"))
    = (self1, Ok (JInt index))
    /\ new_block "1700000060.5" (JInt 0) None self1 = (self2, Ok block)
    /\ subscript "index" block = Ok (JInt index)
    /\ subscript "transactions" block
       = Ok (JList (pending_transactions (fst (init "1700000000.25"))
                      ++ [transfer (JStr "a") (JStr "b") (JInt 5)])).
Proof. apply new_transaction_promise. apply ledger_init. Defined.

(** ** The routes [/mine] and [/transactions/new] *)

Lemma last_block_cons (self : Blockchain) (previous : json) :
  last_block self = Ok previous ->
  exists first blocks,
    chain self = first :: blocks /\ previous = last blocks first.
Proof.
  unfold last_block. destruct (chain self) as [|first blocks].
  - discriminate.
  - rewrite py_last_cons. intros H. injection H as <-. now exists first, blocks.
Qed.

(** On a ledger with a well indexed chain, [/mine] is the search on the
    candidate block, put at the end of the chain. *)
Lemma mine_unfold (fuel : nat) (now node_identifier : string)
    (self : Blockchain) (previous : json) :
  last_block self = Ok previous ->
  well_indexed (chain self) ->
  Routes.mine fuel now node_identifier self
  = match
      proof_of_work fuel (JDict (candidate now node_identifier self previous))
    with
    | None => None
    | Some (block', r) =>
        Some
          ({| chain := chain self ++ [block'];
              pending_transactions := [];
              nodes := nodes self |},
           _ <- r ;;
           index <- subscript "index" block' ;;
           transactions <- subscript "transactions" block' ;;
           proof <- subscript "proof" block' ;;
           previous_hash <- subscript "previous_hash" block' ;;
           Ok (Jsonify
                 (JDict [("message", JStr "New block mined");
                         ("index", index);
                         ("transactions", transactions);
                         ("proof", proof);
                         ("previous_hash", previous_hash)]),
               200%Z))
    end.
Proof.
  intros Hlast Hwi.
  destruct (last_block_cons self previous Hlast) as (first & blocks & E & ->).
  assert (Hne : chain self <> []) by (rewrite E; discriminate).
  pose proof (new_transaction_indexed (JStr "0") (JStr node_identifier)
                (JInt 1) self Hne Hwi) as Hret.
  unfold Routes.mine.
  destruct (new_transaction (JStr "0") (JStr node_identifier) (JInt 1) self)
    as [self1 r1] eqn:E1.
  cbn [snd] in Hret. subst r1.
  unfold new_transaction in E1. injection E1 as <-.
  unfold new_block, previous_hash_or, last_block. cbn [chain].
  rewrite E, py_last_cons. cbn [bind pending_transactions nodes chain].
  rewrite <- E. unfold candidate, transfer.
  destruct (proof_of_work fuel _) as [[block' r]|]; [|reflexivity].
  now rewrite removelast_last.
Qed.

Lemma route_new_transaction_chain (values : json) (self : Blockchain) :
  chain (fst (Routes.new_transaction values self)) = chain self.
Proof.
  unfold Routes.new_transaction.
  destruct (negb (truthy_json values)); [reflexivity|].
  destruct (all_in Routes.required values) as [[|]| |]; try reflexivity.
  destruct (sender <- subscript "sender" values ;; _) as [[[s r] a]| |];
    reflexivity.
Qed.

Lemma valid_chain_snoc (c : list json) (previous block : json) :
  valid_chain c = Ok true ->
  last_block {| chain := c; pending_transactions := []; nodes := [] |}
  = Ok previous ->
  subscript "previous_hash" block = Ok (JStr (hash previous)) ->
  valid_proof block = true ->
  valid_chain (c ++ [block]) = Ok true.
Proof.
  intros Hvalid Hlast Hph Hvp.
  destruct (last_block_cons _ _ Hlast) as (first & blocks & E & ->).
  cbn [chain] in E. subst c. cbn [app valid_chain] in *.
  rewrite valid_chain_from_app, Hvalid. cbn [bind valid_chain_from].
  rewrite Hph, Hvp. cbn [bind py_ne_str negb]. now rewrite String.eqb_refl.
Qed.

Lemma last_block_chain (self : Blockchain) :
  last_block self
  = last_block {| chain := chain self; pending_transactions := [];
                  nodes := [] |}.
Proof. reflexivity. Qed.

Lemma node_state_inv (self : Blockchain) :
  node_state self ->
  valid_chain (chain self) = Ok true /\ well_indexed (chain self).
Proof.
  induction 1 as [now|fuel now id self self' r _ [Hvalid Hwi] Hmine
                 |values self _ IH].
  - split; [reflexivity|].
    intros [|[|i]] b Hb; cbn in Hb; try discriminate. now injection Hb as <-.
  - destruct (chain self) as [|first blocks] eqn:E; [discriminate Hvalid|].
    assert (Hlast : last_block self = Ok (last blocks first))
      by (unfold last_block; rewrite E; apply py_last_cons).
    rewrite <- E in *.
    rewrite (mine_unfold fuel now id self _ Hlast Hwi) in Hmine.
    destruct (proof_of_work fuel _) as [[block' r3]|] eqn:Hrun;
      [|discriminate].
    injection Hmine as <- _. cbn [chain].
    pose proof Hrun as Hint.
    apply (proof_of_work_int fuel _ 0%Z) in Hint as (-> & k & ->);
      [|reflexivity].
    apply proof_of_work_sound in Hrun. split.
    + apply (valid_chain_snoc _ (last blocks first)); trivial;
        rewrite subscript_with_proof by discriminate; reflexivity.
    + apply well_indexed_snoc; trivial;
        rewrite subscript_with_proof by discriminate; reflexivity.
  - now rewrite route_new_transaction_chain.
Qed.

Lemma served_node_state (self : Blockchain) :
  served_state self -> node_state self.
Proof.
  induction 1 as [now|fuel now id self self' reply _ IH Hmine|values self _ IH].
  - apply node_init.
  - exact (node_mine _ _ _ _ _ _ IH Hmine).
  - now apply node_transaction.
Qed.

(** X9: at the end of any sequence of requests on [/mine] and
    [/transactions/new] served one after another from a fresh ledger, every
    [/mine] among them having answered 200, the chain of the node is one
    that [valid_chain] accepts, with the blocks numbered from 1 in order. *)
Theorem served_chain_valid (self : Blockchain) :
  served_state self ->
  valid_chain (chain self) = Ok true /\ well_indexed (chain self).
Proof. intros H. apply node_state_inv. now apply served_node_state. Qed.

(** X10: on such a node, when some proof [n] makes the candidate block
    valid, [/mine] answers 200 for every fuel above the first valid proof
    [k]: the chain has one more block, the candidate with proof [k], which
    holds the whole pool followed by the reward; the pool is empty, the
    chain is still accepted by [valid_chain], and the response shows the
    fields of the mined block. *)
Theorem mine_outcome (now node_identifier : string) (self : Blockchain)
    (previous : json) (n : nat) :
  node_state self ->
  last_block self = Ok previous ->
  valid_proof
    (with_proof (candidate now node_identifier self previous) (Z.of_nat n))
  = true ->
  exists k,
    (k <= n)%nat
    /\ (forall j, (j < k)%nat ->
          valid_proof
            (with_proof (candidate now node_identifier self previous)
               (Z.of_nat j)) = false)
    /\ valid_chain
         (chain self
            ++ [with_proof (candidate now node_identifier self previous)
                  (Z.of_nat k)]) = Ok true
    /\ forall fuel, (k < fuel)%nat ->
         Routes.mine fuel now node_identifier self
         = Some
             ({| chain :=
                   chain self
                     ++ [with_proof (candidate now node_identifier self previous)
                           (Z.of_nat k)];
                 pending_transactions := [];
                 nodes := nodes self |},
              Ok (Jsonify
                    (mined_response
                       (candidate now node_identifier self previous)
                       (Z.of_nat k)),
                  200%Z)).
Proof.
  intros Hnode Hlast Hn.
  destruct (node_state_inv self Hnode) as [Hvalid Hwi].
  destruct (proof_of_work_first_valid n
              (candidate now node_identifier self previous) 0%Z eq_refl Hn)
    as (k & Hk & Hrun & Hfinal & Hbefore).
  cbn [Z.add] in *.
  exists k. repeat split; trivial.
  - apply (valid_chain_snoc _ previous); trivial;
      rewrite subscript_with_proof by discriminate; reflexivity.
  - intros fuel Hfuel.
    rewrite (mine_unfold fuel now node_identifier self previous Hlast Hwi).
    rewrite (Hrun fuel Hfuel). reflexivity.
Qed.

Lemma mine_outcome_witness :
  exists k,
    (k <= Z.to_nat 66510)%nat
    /\ valid_chain
         (chain (fst (init "1700000000.25"))
            ++ [with_proof
                  (candidate "1700000060.5" "node-a"
                     (fst (init "1700000000.25")) Sample.genesis)
                  (Z.of_nat k)]) = Ok true.
Proof.
  destruct (mine_outcome "1700000060.5" "node-a" (fst (init "1700000000.25"))
              Sample.genesis (Z.to_nat 66510))
    as (k & Hk & _ & Hvalid & _).
  - apply node_init.
  - reflexivity.
  - vm_compute. reflexivity.
  - exists k. split; [exact Hk|exact Hvalid].
Defined.

Lemma mined_node_served : served_state mined_node.
Proof.
  refine (served_mine 8 "1700000060.5" "node-23720"
            (fst (init "1700000000.25")) mined_node _ (served_init _) _).
  vm_compute. reflexivity.
Qed.

(** The search of that request went through the proofs 0, 1 and 2. *)
Example mined_node_searched :
  List.length (chain mined_node) = 2%nat
  /\ valid_proof
       (with_proof (candidate "1700000060.5" "node-23720"
                      (fst (init "1700000000.25")) Sample.genesis) 2) = false.
Proof. split; [reflexivity|vm_compute; reflexivity]. Qed.

Lemma served_chain_valid_witness :
  valid_chain
    (chain (fst (Routes.new_transaction
                   (JDict [("sender", JStr "a"); ("recipient", JStr "b");
                           ("amount", JInt 3)])
                   mined_node))) = Ok true.
Proof.
  apply served_chain_valid. apply served_transaction.
  refine (served_mine 8 "1700000060.5" "node-23720"
            (fst (init "1700000000.25")) mined_node _ (served_init _) _).
  vm_compute. reflexivity.
Defined.

Lemma all_in_cases (required : list string) (values : json) :
  (exists ok, all_in required values = Ok ok)
  \/ all_in required values = Raise TypeError.
Proof.
  induction required as [|k required IH]; cbn [all_in]; [left; now exists true|].
  destruct values; cbn [py_in bind]; auto;
    match goal with
    | |- context [if ?c then _ else _] => destruct c; [exact IH|left; now exists false]
    end.
Qed.

(** X11: [/transactions/new] changes the ledger only for a body that is a
    dict with the three keys, and then only by appending to the pool the
    transfer made of their values.  A dict lacking a key gets a 400 and
    leaves the ledger as it was; so does every body that is not a dict,
    which gets a 400 or makes the route raise [TypeError]. *)
Theorem transactions_new_effect (values : json) (self : Blockchain) :
  (forall d sender recipient amount,
     values = JDict d ->
     dict_get "sender" d = Some sender ->
     dict_get "recipient" d = Some recipient ->
     dict_get "amount" d = Some amount ->
     fst (Routes.new_transaction values self)
     = {| chain := chain self;
          pending_transactions :=
            pending_transactions self ++ [transfer sender recipient amount];
          nodes := nodes self |})
  /\ (forall d,
        values = JDict d ->
        dict_get "sender" d = None \/ dict_get "recipient" d = None
        \/ dict_get "amount" d = None ->
        exists text,
          Routes.new_transaction values self = (self, Ok (Text text, 400%Z)))
  /\ ((forall d, values <> JDict d) ->
      fst (Routes.new_transaction values self) = self
      /\ ((exists text,
             snd (Routes.new_transaction values self) = Ok (Text text, 400%Z))
          \/ snd (Routes.new_transaction values self) = Raise TypeError)).
Proof.
  repeat split.
  - intros d s r a -> Hs Hr Ha. unfold Routes.new_transaction.
    destruct d as [|kv d]; [discriminate Hs|].
    cbn [truthy_json negb Routes.required all_in py_in bind subscript].
    rewrite Hs, Hr, Ha. reflexivity.
  - intros d -> Hmiss. unfold Routes.new_transaction.
    destruct d as [|kv d]; [now exists "Missing body"|].
    cbn [truthy_json negb Routes.required all_in py_in bind].
    exists "Missing values".
    destruct (dict_get "sender" (kv :: d)); [|reflexivity].
    destruct (dict_get "recipient" (kv :: d)); [|reflexivity].
    destruct (dict_get "amount" (kv :: d)); [|reflexivity].
    destruct Hmiss as [H|[H|H]]; discriminate H.
  - unfold Routes.new_transaction.
    destruct (negb (truthy_json values)); [reflexivity|].
    destruct (all_in_cases Routes.required values) as [[[|] E]|E]; rewrite E;
      try reflexivity.
    destruct values; try reflexivity. now elim (H entries).
  - unfold Routes.new_transaction.
    destruct (negb (truthy_json values)); [left; now eexists|].
    destruct (all_in_cases Routes.required values) as [[[|] E]|E]; rewrite E;
      [|left; now eexists|now right].
    destruct values; try (now right). now elim (H entries).
Qed.

Lemma transactions_new_effect_witness :
  fst (Routes.new_transaction
         (JDict [("amount", JInt 3); ("sender", JStr "a");
                 ("recipient", JStr "b"); ("memo", JNull)])
         local_node)
  = {| chain := chain local_node;
       pending_transactions :=
         pending_transactions local_node
           ++ [transfer (JStr "a") (JStr "b") (JInt 3)];
       nodes := nodes local_node |}.
Proof.
  refine (proj1 (transactions_new_effect _ local_node) _ _ _ _ eq_refl _ _ _);
    reflexivity.
Defined.

(** A body that is a string naming the three keys passes the key test, which
    on a string looks for substrings, and then makes the route raise. *)
Example transactions_new_string_body :
  Routes.new_transaction (JStr "sender, recipient, amount") local_node
  = (local_node, Raise TypeError).
Proof. reflexivity. Qed.

(** X12: [/transactions/new] is not atomic.  When the index of the last
    block cannot be read or incremented, as can happen once a chain was
    taken from a peer, the request fails with that exception and the
    transfer is in the pool all the same. *)
Theorem transactions_new_not_atomic (d : dict json)
    (sender recipient amount : json) (self : Blockchain) (e : exn) :
  dict_get "sender" d = Some sender ->
  dict_get "recipient" d = Some recipient ->
  dict_get "amount" d = Some amount ->
  (b <- last_block self ;; i <- subscript "index" b ;; py_add1 i) = Raise e ->
  Routes.new_transaction (JDict d) self
  = ({| chain := chain self;
        pending_transactions :=
          pending_transactions self ++ [transfer sender recipient amount];
        nodes := nodes self |}, Raise e).
Proof.
  intros Hs Hr Ha Hraise. unfold Routes.new_transaction.
  destruct d as [|kv d]; [discriminate Hs|].
  cbn [truthy_json negb Routes.required all_in py_in bind subscript].
  rewrite Hs, Hr, Ha. cbn [bind]. unfold new_transaction, last_block in *.
  cbn [chain] in *. rewrite Hraise. reflexivity.
Qed.

Lemma transactions_new_not_atomic_witness :
  Routes.new_transaction
    (JDict [("sender", JStr "a"); ("recipient", JStr "b"); ("amount", JInt 3)])
    {| chain := [JDict [("proof", JInt 1)]];
       pending_transactions := [];
       nodes := ["peer1"] |}
  = ({| chain := [JDict [("proof", JInt 1)]];
        pending_transactions := [transfer (JStr "a") (JStr "b") (JInt 3)];
        nodes := ["peer1"] |}, Raise KeyError).
Proof.
  apply (transactions_new_not_atomic _ (JStr "a") (JStr "b") (JInt 3));
    reflexivity.
Defined.

(** ** Resolver: frame, order of the peers, reported lengths *)

(** What a scan that ends can have recorded, whatever the peers send. *)
Lemma scan_record (fetch : network) (neighbors : list string) :
  forall m nc m' nc',
    scan fetch neighbors m nc = Ok (m', nc') ->
    (m' = m /\ nc' = nc)
    \/ (exists n c,
          In n neighbors /\ fetch n = Response 200 m' c /\ nc' = Some c
          /\ valid_chain c = Ok true /\ (m < m')%Z).
Proof.
  induction neighbors as [|node rest IH]; intros m nc m' nc'; cbn [scan].
  - intros H. injection H as <- <-. now left.
  - assert (Hskip : scan fetch rest m nc = Ok (m', nc') ->
              (m' = m /\ nc' = nc)
              \/ (exists n c,
                    In (A := string) n (node :: rest)
                    /\ fetch n = Response 200 m' c /\ nc' = Some c
                    /\ valid_chain c = Ok true /\ (m < m')%Z)).
    { intros H. apply IH in H as [H|(n & c & Hin & H)]; [now left|].
      right. exists n, c. split; [now right|exact H]. }
    destruct (fetch node) as [e|s len c] eqn:Hfetch; [discriminate|].
    destruct (Z.eqb_spec s 200) as [->|_]; [|exact Hskip].
    destruct (Z.gtb_spec len m) as [Hgt|_]; [|exact Hskip].
    destruct (valid_chain c) as [[|]| |] eqn:Hvalid; cbn [bind];
      try discriminate; [|exact Hskip].
    intros H. right.
    apply IH in H as [[-> ->]|(n & c' & Hin & Hn & -> & Hv & Hlt)].
    + exists node, c. repeat split; trivial. now left.
    + exists n, c'. repeat split; trivial; [now right|lia].
Qed.

(** X13: [resolve_conflict] never touches the pool or the peer set, and it
    leaves the whole ledger as it was unless it returns true.  When it
    returns true, the new chain is one that a registered peer sent with
    status 200 and a reported length above the local one, and that
    [valid_chain] accepts.  Nothing is assumed on the peers. *)
Theorem resolve_conflict_frame (fetch : network) (self : Blockchain) :
  pending_transactions (fst (resolve_conflict fetch self))
  = pending_transactions self
  /\ nodes (fst (resolve_conflict fetch self)) = nodes self
  /\ (snd (resolve_conflict fetch self) <> Ok true ->
      fst (resolve_conflict fetch self) = self)
  /\ (snd (resolve_conflict fetch self) = Ok true ->
      exists n len,
        In n (nodes self)
        /\ fetch n = Response 200 len (chain (fst (resolve_conflict fetch self)))
        /\ (local_length self < len)%Z
        /\ valid_chain (chain (fst (resolve_conflict fetch self))) = Ok true).
Proof.
  unfold resolve_conflict. fold (local_length self).
  destruct (scan fetch (nodes self) (local_length self) None)
    as [[m' nc']| |] eqn:Hscan; cbn [fst snd];
    try (repeat split; trivial; discriminate).
  apply scan_record in Hscan
    as [[-> ->]|(n & c & Hin & Hn & -> & Hv & Hlt)]; cbn [truthy fst snd].
  - repeat split; trivial. discriminate.
  - destruct c as [|b c]; [discriminate Hv|]. cbn [fst snd chain].
    repeat split; trivial.
    + intros H. now elim H.
    + intros _. now exists n, m'.
Qed.

Lemma winner_eligible (fetch : network) (neighbors : list string)
    (w : string) (len : Z) (c : list json) :
  winner fetch neighbors w len c ->
  In w neighbors /\ fetch w = Response 200 len c /\ valid_chain c = Ok true.
Proof.
  intros (pre & post & -> & Hw & Hv & _). repeat split; trivial.
  apply in_or_app. right. now left.
Qed.

Lemma winner_greatest (fetch : network) (neighbors : list string)
    (w : string) (len : Z) (c : list json) :
  winner fetch neighbors w len c ->
  forall n len' c',
    In n neighbors -> fetch n = Response 200 len' c' ->
    valid_chain c' = Ok true -> (len' <= len)%Z.
Proof.
  intros (pre & post & -> & Hw & Hv & Hpre & Hpost) n len' c' Hin Hn Hvalid.
  apply in_app_or in Hin as [Hin|[<-|Hin]].
  - specialize (Hpre n len' c' Hin Hn Hvalid). lia.
  - rewrite Hw in Hn. injection Hn as <- <-. lia.
  - exact (Hpost n len' c' Hin Hn Hvalid).
Qed.

(** X14: when the scan completes in the two orders, the order in which the
    peer set is iterated does not change what [resolve_conflict] returns,
    nor the reported length it settles on. *)
Theorem resolve_conflict_order (fetch : network) (self : Blockchain)
    (neighbors : list string) (m m' : Z) (c c' : option (list json)) :
  Permutation (nodes self) neighbors ->
  scan fetch (nodes self) (local_length self) None = Ok (m, c) ->
  scan fetch neighbors (local_length self) None = Ok (m', c') ->
  m' = m
  /\ exists replaced,
       resolve_conflict fetch self
       = (fst (resolve_conflict fetch self), Ok replaced)
       /\ snd (resolve_conflict fetch
                 {| chain := chain self;
                    pending_transactions := pending_transactions self;
                    nodes := neighbors |}) = Ok replaced.
Proof.
  intros Hperm Hres Hres'.
  unfold resolve_conflict. cbn [chain nodes pending_transactions].
  fold (local_length self). rewrite Hres, Hres'.
  destruct (scan_completed fetch (nodes self) _ None m c Hres)
    as (_ & _ & [(Hnone & -> & ->)|(w & len & d & Hwin & Hlt & -> & ->)]);
    destruct (scan_completed fetch neighbors _ None m' c' Hres')
      as (_ & _ & [(Hnone' & -> & ->)
                  |(w' & len' & d' & Hwin' & Hlt' & -> & ->)]).
  - split; [reflexivity|]. exists false. now split.
  - exfalso. destruct (winner_eligible _ _ _ _ _ Hwin') as (Hin & Hw & Hv).
    apply (Hnone w'); [eapply Permutation_in; [symmetry|]; eassumption|].
    now exists len', d'.
  - exfalso. destruct (winner_eligible _ _ _ _ _ Hwin) as (Hin & Hw & Hv).
    apply (Hnone' w); [eapply Permutation_in; eassumption|].
    now exists len, d.
  - destruct (winner_eligible _ _ _ _ _ Hwin) as (Hin & Hw & Hv).
    destruct (winner_eligible _ _ _ _ _ Hwin') as (Hin' & Hw' & Hv').
    assert (len' = len) as ->.
    { apply Z.le_antisymm.
      - apply (winner_greatest _ _ _ _ _ Hwin w' len' d'); trivial.
        eapply Permutation_in; [symmetry|]; eassumption.
      - apply (winner_greatest _ _ _ _ _ Hwin' w len d); trivial.
        eapply Permutation_in; eassumption. }
    split; [reflexivity|]. exists true.
    destruct d; [discriminate Hv|]. destruct d'; [discriminate Hv'|].
    now split.
Qed.

Lemma resolve_conflict_order_witness :
  exists replaced,
    resolve_conflict net_longer local_node
    = (fst (resolve_conflict net_longer local_node), Ok replaced)
    /\ snd (resolve_conflict net_longer
              {| chain := chain local_node;
                 pending_transactions := pending_transactions local_node;
                 nodes := ["peer2"; "peer1"] |}) = Ok replaced.
Proof.
  refine (proj2 (resolve_conflict_order net_longer local_node
                   ["peer2"; "peer1"] 3 3 (Some Sample.chain3)
                   (Some Sample.chain3) _ _ _)).
  - apply perm_swap.
  - vm_compute. reflexivity.
  - vm_compute. reflexivity.
Defined.

(** Whether the scan completes does depend on the order: with peer2 sending
    two values that are not blocks under a length of 2, the scan that meets
    peer1 first never walks them, and the scan that meets peer2 first
    raises. *)
Example scan_order_raises :
  snd (resolve_conflict net_junk local_node) = Ok true
  /\ snd (resolve_conflict net_junk
            {| chain := chain local_node;
               pending_transactions := pending_transactions local_node;
               nodes := ["peer2"; "peer1"] |}) = Raise TypeError.
Proof. split; vm_compute; reflexivity. Qed.

(** X15: the length a peer reports is taken on trust.  A single peer that
    answers 200 with a length above the local one and a chain of one block,
    any block, makes [resolve_conflict] return true and leave that one block
    as the chain, however long the local chain was. *)
Theorem resolve_conflict_trusts_length (fetch : network) (self : Blockchain)
    (n : string) (len : Z) (b : json) :
  nodes self = [n] ->
  fetch n = Response 200 len [b] ->
  (local_length self < len)%Z ->
  resolve_conflict fetch self
  = ({| chain := [b];
        pending_transactions := pending_transactions self;
        nodes := nodes self |}, Ok true).
Proof.
  intros Hnodes Hfetch Hlt. unfold resolve_conflict. fold (local_length self).
  rewrite Hnodes. cbn [scan]. rewrite Hfetch. cbn [Z.eqb Pos.eqb].
  destruct (Z.gtb_spec len (local_length self)) as [_|Hle]; [|lia].
  cbn [valid_chain valid_chain_from bind truthy]. reflexivity.
Qed.

Lemma resolve_conflict_trusts_length_witness :
  resolve_conflict (fun _ => Response 200 9 [JNull])
    {| chain := Sample.chain3; pending_transactions := [];
       nodes := ["peer1"] |}
  = ({| chain := [JNull]; pending_transactions := [];
        nodes := ["peer1"] |}, Ok true).
Proof.
  refine (resolve_conflict_trusts_length (fun _ => Response 200 9 [JNull])
            {| chain := Sample.chain3; pending_transactions := [];
               nodes := ["peer1"] |} "peer1" 9 JNull _ _ _);
    [reflexivity|reflexivity|cbn; lia].
Defined.

Lemma scan_settled (fetch : network) (neighbors : list string) :
  forall m nc,
    (forall n, In n neighbors ->
       exists status_code len c,
         fetch n = Response status_code len c
         /\ (status_code = 200%Z -> (m < len)%Z ->
             valid_chain c = Ok false)) ->
    scan fetch neighbors m nc = Ok (m, nc).
Proof.
  induction neighbors as [|node rest IH]; intros m nc Hall; [reflexivity|].
  cbn [scan].
  destruct (Hall node (or_introl eq_refl)) as (s & len & c & -> & Hrefused).
  assert (Hrest : scan fetch rest m nc = Ok (m, nc))
    by (apply IH; intros n Hin; apply Hall; now right).
  destruct (Z.eqb_spec s 200) as [Hs|_]; [|exact Hrest].
  destruct (Z.gtb_spec len m) as [Hgt|_]; [|exact Hrest].
  now rewrite (Hrefused Hs Hgt).
Qed.

(** X16: when the scan completes and every answering peer reports the
    length its chain has, as [/chain] does, [resolve_conflict] never leaves
    a shorter chain than it found, and a second run against the same answers
    returns false and changes nothing. *)
Theorem resolve_conflict_truthful (fetch : network) (self : Blockchain)
    (m : Z) (nc : option (list json)) :
  scan fetch (nodes self) (local_length self) None = Ok (m, nc) ->
  truthful fetch (nodes self) ->
  (List.length (chain self)
   <= List.length (chain (fst (resolve_conflict fetch self))))%nat
  /\ resolve_conflict fetch (fst (resolve_conflict fetch self))
     = (fst (resolve_conflict fetch self), Ok false).
Proof.
  intros Hscan Htrue.
  destruct (scan_completed fetch (nodes self) _ None m nc Hscan)
    as (_ & Hpeers & Hend).
  assert (Hfix : forall s : Blockchain,
            nodes s = nodes self -> local_length s = m ->
            resolve_conflict fetch s = (s, Ok false)).
  { intros s Hnodes Hlocal. unfold resolve_conflict. fold (local_length s).
    rewrite Hnodes, Hlocal.
    now rewrite (scan_settled fetch (nodes self) m None Hpeers). }
  unfold resolve_conflict at 1 3 4. fold (local_length self). rewrite Hscan.
  destruct Hend as [(_ & -> & ->)|(w & len & c & Hwin & Hlt & -> & ->)].
  - cbn [truthy fst]. split; [reflexivity|]. now apply Hfix.
  - destruct (winner_eligible _ _ _ _ _ Hwin) as (Hin & Hw & Hv).
    pose proof (Htrue w 200%Z len c Hin Hw eq_refl) as Hlen.
    destruct c as [|b c]; [discriminate Hv|]. cbn [truthy fst chain]. split.
    + unfold local_length in Hlt. lia.
    + apply Hfix; [reflexivity|]. unfold local_length. cbn [chain].
      now symmetry.
Qed.

Lemma resolve_conflict_truthful_witness :
  (List.length (chain local_node)
   <= List.length (chain (fst (resolve_conflict net_longer local_node))))%nat
  /\ resolve_conflict net_longer (fst (resolve_conflict net_longer local_node))
     = (fst (resolve_conflict net_longer local_node), Ok false).
Proof.
  refine (resolve_conflict_truthful net_longer local_node 3
            (Some Sample.chain3) _ _).
  - vm_compute. reflexivity.
  - intros n s len c [<-|[<-|[]]] Hfetch _;
      cbn in Hfetch; injection Hfetch as _ <- <-; reflexivity.
Defined.

(** ** Validation and the order of the fields *)

Lemma dict_get_Some_In {A : Type} (k : string) (v : A) (d : dict A) :
  dict_get k d = Some v -> In (k, v) d.
Proof.
  induction d as [|[k0 v0] d IH]; cbn [dict_get]; [discriminate|].
  destruct (String.eqb_spec k k0) as [->|_]; intros H.
  - injection H as ->. now left.
  - right. now apply IH.
Qed.

Lemma dict_get_In {A : Type} (k : string) (v : A) (d : dict A) :
  NoDup (keys d) -> In (k, v) d -> dict_get k d = Some v.
Proof.
  induction d as [|[k0 v0] d IH]; cbn [dict_get keys map fst]; intros Hnd Hin;
    [now elim Hin|].
  inversion Hnd as [|? ? Hnotin Hnd']; subst.
  destruct Hin as [Heq|Hin].
  - injection Heq as -> ->. now rewrite String.eqb_refl.
  - destruct (String.eqb_spec k k0) as [->|_]; [|now apply IH].
    elim Hnotin. change k0 with (fst (k0, v)). now apply in_map.
Qed.

Lemma dict_get_None {A : Type} (k : string) (d : dict A) :
  dict_get k d = None <-> ~ In k (keys d).
Proof.
  induction d as [|[k0 v0] d IH]; cbn [dict_get keys map fst].
  - split; [intros _ []|reflexivity].
  - destruct (String.eqb_spec k k0) as [->|Hne].
    + split; [discriminate|]. intros H. elim H. now left.
    + rewrite IH. split; intros H.
      * intros [Heq|Hin]; [now elim Hne|now elim H].
      * intros Hin. apply H. now right.
Qed.

Lemma dict_get_perm {A : Type} (k : string) (d m : dict A) :
  NoDup (keys d) -> Permutation d m -> dict_get k m = dict_get k d.
Proof.
  intros Hnd Hperm.
  assert (Hnd' : NoDup (keys m))
    by (eapply Permutation_NoDup; [apply Permutation_map; eassumption|assumption]).
  destruct (dict_get k d) as [v|] eqn:E.
  - apply dict_get_In; [assumption|].
    eapply Permutation_in; [eassumption|]. now apply dict_get_Some_In.
  - apply dict_get_None. apply dict_get_None in E. intros Hin. apply E.
    eapply Permutation_in; [|eassumption].
    apply Permutation_map. now symmetry.
Qed.

Lemma subscript_equiv (k : string) (b b' : json) :
  json_wf b = true -> json_equiv b b' ->
  result_equiv (subscript k b) (subscript k b').
Proof.
  intros Hwf Heq.
  destruct b as [|c|z|r|s|l|d];
    try (inversion Heq; subst; reflexivity).
  apply json_equiv_dict_inv in Heq as (m & d' & -> & Hperm & H2).
  cbn [json_wf] in Hwf. apply andb_prop in Hwf as [Hkeys _].
  apply distinct_NoDup in Hkeys. cbn [subscript].
  rewrite <- (dict_get_perm k _ _ Hkeys Hperm). clear Hperm.
  induction H2 as [|[k1 v1] [k2 v2] m' d'' [Hk Hv] H2 IHm];
    cbn [dict_get]; [reflexivity|].
  cbn [fst snd] in Hk, Hv. subst k2.
  destruct (String.eqb k k1); [exact Hv|exact IHm].
Qed.

Lemma py_ne_str_equiv (v v' : json) (s : string) :
  json_equiv v v' -> py_ne_str v s = py_ne_str v' s.
Proof. intros H. inversion H; reflexivity. Qed.

Lemma hash_equiv (a b : json) :
  json_wf a = true -> json_equiv a b -> hash a = hash b.
Proof. intros Hwf Heq. unfold hash. now rewrite (dumps_equiv a Hwf b Heq). Qed.

Lemma valid_chain_from_equiv (blocks blocks' : list json) :
  Forall2 json_equiv blocks blocks' ->
  forall last_block last_block',
    json_equiv last_block last_block' ->
    json_wf last_block = true ->
    forallb json_wf blocks = true ->
    valid_chain_from last_block blocks = valid_chain_from last_block' blocks'.
Proof.
  induction 1 as [|b b' blocks blocks' Hb _ IH];
    intros last_block last_block' Hlast Hwl Hwf; [reflexivity|].
  cbn [forallb] in Hwf. apply andb_prop in Hwf as [Hwb Hwf].
  cbn [valid_chain_from].
  pose proof (subscript_equiv "previous_hash" b b' Hwb Hb) as Hsub.
  destruct (subscript "previous_hash" b) as [ph|e|];
    destruct (subscript "previous_hash" b') as [ph'|e'|];
    cbn [result_equiv] in Hsub; try contradiction; cbn [bind];
    [|now subst].
  rewrite (py_ne_str_equiv ph ph' _ Hsub), (hash_equiv _ _ Hwl Hlast).
  unfold valid_proof. rewrite (hash_equiv _ _ Hwb Hb).
  destruct (py_ne_str ph' _); [reflexivity|].
  destruct (negb _); [reflexivity|]. now apply IH.
Qed.

(** X17: [valid_chain] does not depend on the order in which the fields of
    the blocks, or of anything inside them, were inserted: on two chains
    whose blocks are the same logical values it gives the same answer or
    raises the same exception.  A chain that went through a transport that
    reorders keys is judged as the original. *)
Theorem valid_chain_equiv (c c' : list json) :
  Forall2 json_equiv c c' ->
  forallb json_wf c = true ->
  valid_chain c = valid_chain c'.
Proof.
  intros [|b b' blocks blocks' Hb Hrest] Hwf; [reflexivity|].
  cbn [forallb] in Hwf. apply andb_prop in Hwf as [Hwb Hwf].
  cbn [valid_chain]. now apply valid_chain_from_equiv.
Qed.

Lemma valid_chain_equiv_witness :
  valid_chain [Sample.genesis; Sample.second 66510]
  = valid_chain [Sample.genesis; second_reordered].
Proof.
  apply valid_chain_equiv; [|reflexivity].
  constructor; [apply json_equiv_refl|]. constructor; [|constructor].
  unfold Sample.second, second_reordered.
  eapply equiv_dict; [apply Permutation_rev|]. cbn [rev app].
  repeat (constructor; [split; [reflexivity|try apply json_equiv_refl]|]);
    [|constructor].
  apply equiv_list. constructor; [|constructor].
  eapply equiv_dict; [apply Permutation_rev|]. cbn [rev app].
  repeat (constructor; [split; [reflexivity|apply json_equiv_refl]|]).
  constructor.
Defined.

(** ** The text that is hashed *)

Lemma all_printable_app (a b : string) :
  all_printable (a ++ b) = all_printable a && all_printable b.
Proof.
  unfold all_printable. induction a as [|c a IH]; [reflexivity|].
  cbn [append list_ascii_of_string forallb]. now rewrite IH, andb_assoc.
Qed.

Lemma all_printable_concat (sep : string) (l : list string) :
  all_printable sep = true ->
  Forall (fun s => all_printable s = true) l ->
  all_printable (String.concat sep l) = true.
Proof.
  intros Hsep. induction 1 as [|x l Hx Hl IH]; [reflexivity|].
  cbn [String.concat]. destruct l as [|y l]; [exact Hx|].
  now rewrite !all_printable_app, Hx, Hsep, IH.
Qed.

Lemma hex_digit_printable (n : N) : printable (SHA256.hex_digit n) = true.
Proof.
  unfold SHA256.hex_digit.
  destruct (N.land n 15) as [|p]; [reflexivity|].
  do 4 (try destruct p as [p|p|]; try reflexivity).
Qed.

Lemma escape_char_printable (c : ascii) :
  all_printable (Json.escape_char c) = true.
Proof.
  unfold Json.escape_char.
  repeat match goal with
         | |- context [if (?a =? ?b)%N then _ else _] =>
             destruct (a =? b)%N; [reflexivity|]
         end.
  destruct (_ && _) eqn:E.
  - unfold all_printable, printable. cbn [list_ascii_of_string forallb].
    now rewrite E.
  - unfold Json.hex4, all_printable.
    cbn [append list_ascii_of_string map string_of_list_ascii forallb].
    now rewrite !hex_digit_printable.
Qed.

Lemma escape_printable (s : string) : all_printable (Json.escape s) = true.
Proof.
  induction s as [|c s IH]; [reflexivity|].
  cbn [Json.escape]. now rewrite all_printable_app, escape_char_printable, IH.
Qed.

Lemma quote_printable (s : string) : all_printable (Json.quote s) = true.
Proof.
  unfold Json.quote.
  change (String Json.dquote (Json.escape s ++ String Json.dquote ""))
    with (String Json.dquote "" ++ Json.escape s ++ String Json.dquote "")%string.
  now rewrite !all_printable_app, escape_printable.
Qed.

Lemma string_of_uint_printable (d : Decimal.uint) :
  all_printable (NilEmpty.string_of_uint d) = true.
Proof. induction d; cbn [NilEmpty.string_of_uint]; trivial. Qed.

Lemma int_repr_printable (z : Z) : all_printable (Json.int_repr z) = true.
Proof.
  assert (H : forall d, all_printable (NilZero.string_of_uint d) = true).
  { intros d. unfold NilZero.string_of_uint.
    destruct d; try reflexivity; apply string_of_uint_printable. }
  unfold Json.int_repr, NilZero.string_of_int.
  destruct (Z.to_int z) as [d|d]; [apply H|].
  change (String "-" (NilZero.string_of_uint d))
    with ("-" ++ NilZero.string_of_uint d)%string.
  now rewrite all_printable_app, H.
Qed.

(** X18: the text that [hash] feeds to SHA-256 is made of printable ASCII
    characters only, whatever strings the block holds (the texts of its
    floats being ASCII, as [repr] gives them): strings are escaped.  So the
    UTF-8 encoding of the text has one byte for each character. *)
Theorem dumps_ascii (v : json) :
  floats_printable v = true -> all_printable (Json.dumps v) = true.
Proof.
  induction v as [|c|z|r|s|l IH|d IH] using json_nested_ind;
    cbn [floats_printable Json.dumps]; intros Hf.
  - reflexivity.
  - now destruct c.
  - apply int_repr_printable.
  - exact Hf.
  - apply quote_printable.
  - change ("[" ++ String.concat ", " (map Json.dumps l) ++ "]")%string
      with ("[" ++ (String.concat ", " (map Json.dumps l) ++ "]"))%string.
    rewrite !all_printable_app, all_printable_concat; trivial.
    rewrite forallb_forall in Hf. rewrite Forall_forall in IH.
    apply Forall_forall. intros x Hx. apply in_map_iff in Hx as (y & <- & Hy).
    apply IH; [exact Hy|now apply Hf].
  - fold (render_values d).
    change ("{" ++ ?x ++ "}")%string with ("{" ++ (x ++ "}"))%string.
    rewrite !all_printable_app, all_printable_concat; trivial.
    rewrite forallb_forall in Hf. rewrite Forall_forall in IH.
    apply Forall_forall. intros x Hx. apply in_map_iff in Hx as ([k t] & <- & Hy).
    apply (Permutation_in _ (SortFacts.sort_items_perm _)) in Hy.
    apply in_map_iff in Hy as ([k' w] & E & Hw). injection E as <- <-.
    unfold Json.render_item. cbn [fst snd].
    rewrite !all_printable_app, quote_printable.
    cbn [andb]. apply (IH _ Hw). now apply (Hf _ Hw).
Qed.

Lemma dumps_ascii_witness :
  all_printable
    (Json.dumps (JDict [("note", JStr (String "233" (String "010" "x")));
                        ("timestamp", JFloat "1700000060.5")])) = true.
Proof. apply dumps_ascii. reflexivity. Defined.

(** ** Consensus among nodes that run this code *)


